(** * skykey: a shallow embedding of the Skykey manager

    The development follows [skykey/skykey.go]: the key record and its
    codec, the derivation of identifiers and subkeys, the persist file
    with its header, and the manager with its two maps.

    Conventions.
    - A Go [string] is a Rocq [string]; a [[]byte] and a fixed-size byte
      array are [list byte].  A slice expression [s[:k]] panics when [k]
      exceeds the capacity; the model takes capacity = length.
    - A [uint64] is an [N] below [2^64]; an [int] is a [Z] in the signed
      64-bit range.
    - Functions that can fail return [result], whose third constructor
      records a run-time panic.
    - The packages the file imports but that are not part of it ([crypto],
      [build], [encoding]) appear as type classes. *)

From Stdlib Require Import ZArith NArith List String Ascii Lia Bool.
From Stdlib Require Strings.Byte.
From stdpp Require Import base option list gmap strings countable.
Import ListNotations.

Local Open Scope nat_scope.

Abbreviation byte := Corelib.Init.Byte.byte.

(** ** Bytes *)

Module Bytes.

#[global] Instance byte_eq_dec : EqDecision byte := Byte.byte_eq_dec.

#[global] Program Instance byte_countable : Countable byte :=
  inj_countable Byte.to_N Byte.of_N _.
Next Obligation. intros x. apply Byte.of_to_N. Qed.

Definition x00 : byte := Corelib.Init.Byte.x00.

(** The byte holding [n mod 256]. *)
Definition byte_of_N (n : N) : byte :=
  match Byte.of_N (n mod 256) with
  | Some b => b
  | None => x00
  end.

(** Little-endian encoding of [n] on [k] bytes, as [binary.LittleEndian]
    does for [k = 8]. *)
Fixpoint le_bytes (k : nat) (n : N) : list byte :=
  match k with
  | O => []
  | S k' => byte_of_N n :: le_bytes k' (n / 256)
  end.

Fixpoint le_value (bs : list byte) : N :=
  match bs with
  | [] => 0%N
  | b :: bs' => (Byte.to_N b + 256 * le_value bs')%N
  end.

(** [s[:k]] on a slice whose capacity is its length, such as
    [make([]byte, n)] gives.  Go panics when [k] is above the capacity;
    a list holds no capacity, so that for a slice with
    [len s < k <= cap s], where Go reads on into the capacity, this
    definition gives [None].  The statements about a panic of [ID] or
    [SubkeyWithNonce] are about keys whose entropy has no such spare
    capacity. *)
Definition slice_to {A} (k : nat) (s : list A) : option (list A) :=
  if decide (k <= length s) then Some (take k s) else None.

(** [s[k:]]. *)
Definition slice_from {A} (k : nat) (s : list A) : option (list A) :=
  if decide (k <= length s) then Some (drop k s) else None.

(** The built-in [copy(dst, src)]: the first [min (len dst) (len src)]
    elements of [dst] are replaced. *)
Definition copy {A} (dst src : list A) : list A :=
  take (length dst) src ++ drop (length src) dst.

End Bytes.
Import Bytes.

(** ** Results *)

Inductive io_step :=
| StepOpen
| StepStat
| StepRead
| StepSeek
| StepWrite (written : nat)
| StepSync
| StepHeaderSeek
| StepHeaderWrite (written : nat)
| StepHeaderSync
| StepOffset
| StepMkdir.

Inductive error :=
| ErrSkykeyWithNameAlreadyExists
| ErrSkykeyWithIDAlreadyExists
| errUnsupportedSkykeyCipherType
| errNoSkykeysWithThatName
| errNoSkykeysWithThatID
| errSkykeyNameToolong
| errIncorrectNonceSize
| errCreatingSubkey
| errInvalidIDLength
| errCorruptBase64
| errDecode
| errExpectedMagic
| errHeaderMissingVersion
| errUnknownVersion
| errExpectedEntireFile
| errIO (s : io_step).

Inductive result (A : Type) :=
| Ok (a : A)
| Err (e : error)
| Panic.
Arguments Ok {A} a.
Arguments Err {A} e.
Arguments Panic {A}.

Definition bind {A B} (r : result A) (k : A -> result B) : result B :=
  match r with
  | Ok a => k a
  | Err e => Err e
  | Panic => Panic
  end.

Notation "x <- r ;; k" := (bind r (fun x => k))
  (at level 100, r at next level, right associativity).

Definition of_slice {A} (o : option A) : result A :=
  match o with
  | Some a => Ok a
  | None => Panic
  end.

Definition is_ok {A} (r : result A) : bool :=
  match r with Ok _ => true | _ => false end.

#[global] Instance io_step_eq_dec : EqDecision io_step.
Proof. solve_decision. Defined.

#[global] Instance error_eq_dec : EqDecision error.
Proof. solve_decision. Defined.

(** ** Imported packages *)

(** Package [types]: a specifier is a 16-byte tag, the bytes of an ASCII
    name padded with NUL on the right. *)
Module types.

Definition SpecifierLen : nat := 16.

Definition NewSpecifier (name : string) : list byte :=
  copy (replicate SpecifierLen x00) (list_byte_of_string name).

End types.

(** Package [chacha]: sizes of the key and of the extended nonce. *)
Module chacha.

Definition KeySize : nat := 32.
Definition XNonceSize : nat := 24.

End chacha.

(** Package [crypto]. *)
Module crypto.

(** Modelled from the spec: the cipher type is a fixed-width 16-byte
    specifier tag; the declaration of [crypto.CipherType] is not part of
    the file. *)
Definition CipherType := list byte.
Definition CipherTypeLen : nat := 16.

(** The tag of the one supported cipher, [crypto.HashAll] on the bytes of
    its arguments, and the check made by [crypto.NewSiaKey] ([true] when a
    cipher key can be built from the entropy). *)
Class Package := {
  TypeXChaCha20 : CipherType;
  HashAll : list (list byte) -> list byte;
  NewSiaKey : CipherType -> list byte -> bool
}.

End crypto.

(** Package [build]: version strings. *)
Module build.

Class Package := {
  IsVersion : string -> bool;
  VersionCmp : string -> string -> Z
}.

End build.

(** Package [encoding]. *)
Module encoding.

(** Modelled from the spec: a string or a byte slice is written as an
    8-byte little-endian length followed by the bytes, a fixed-size array
    as its bytes; the encoder and the decoder are not part of the file. *)
Definition EncodePrefixed (bs : list byte) : list byte :=
  le_bytes 8 (N.of_nat (length bs)) ++ bs.

(** The decoder keeps its first error: once [dec_err] is set every later
    [Decode] leaves the input and the destination alone. *)
Record Decoder := mkDecoder {
  dec_in : list byte;
  maxAlloc : N;
  dec_err : option error
}.

Definition NewDecoder (r : list byte) (limit : N) : Decoder :=
  mkDecoder r limit None.

Definition fail (d : Decoder) : Decoder :=
  mkDecoder [] (maxAlloc d) (Some errDecode).

(** Reads exactly [k] bytes; a short read is an error. *)
Definition ReadFull (k : nat) (d : Decoder) : list byte * Decoder :=
  match dec_err d with
  | Some _ => ([], d)
  | None =>
      if decide (k <= length (dec_in d))
      then (take k (dec_in d), mkDecoder (drop k (dec_in d)) (maxAlloc d) None)
      else ([], fail d)
  end.

(** A fixed-size array of [k] bytes. *)
Definition DecodeArray (k : nat) (d : Decoder) : list byte * Decoder :=
  ReadFull k d.

(** A string or byte slice: the length prefix is checked against the
    allocation limit before the bytes are read. *)
Definition DecodePrefixed (d : Decoder) : list byte * Decoder :=
  let (p, d1) := ReadFull 8 d in
  match dec_err d1 with
  | Some _ => ([], d1)
  | None =>
      if (le_value p <=? maxAlloc d1)%N
      then ReadFull (N.to_nat (le_value p)) d1
      else ([], fail d1)
  end.

Definition DecodeUint64 (d : Decoder) : N * Decoder :=
  let (p, d1) := ReadFull 8 d in (le_value p, d1).

Class Package := {
  DefaultAllocLimit : N
}.

End encoding.

(** Package [encoding/base64], the URL-safe alphabet with padding
    ([base64.URLEncoding]). *)
Module base64.

(** Six bits, the most significant first. *)
Definition sextet : Type := bool * bool * bool * bool * bool * bool.

Definition encodeURL : list byte :=
  list_byte_of_string
    "ABCDEFGHIJKLMNOPQRSTUVWXYZabcdefghijklmnopqrstuvwxyz0123456789-_".

Definition padChar : byte := Corelib.Init.Byte.x3d.
Definition charLF : byte := Corelib.Init.Byte.x0a.
Definition charCR : byte := Corelib.Init.Byte.x0d.

Definition index (s : sextet) : nat :=
  let '(a, b, c, d, e, f) := s in
  32 * Nat.b2n a + 16 * Nat.b2n b + 8 * Nat.b2n c
  + 4 * Nat.b2n d + 2 * Nat.b2n e + Nat.b2n f.

Definition sextet_of_nat (n : nat) : sextet :=
  (Nat.testbit n 5, Nat.testbit n 4, Nat.testbit n 3,
   Nat.testbit n 2, Nat.testbit n 1, Nat.testbit n 0).

Definition enc_char (s : sextet) : byte := nth (index s) encodeURL padChar.

Fixpoint find_index (c : byte) (l : list byte) : option nat :=
  match l with
  | [] => None
  | x :: l' => if decide (x = c) then Some 0 else S <$> find_index c l'
  end.

(** The decode map: the position of the character in the alphabet. *)
Definition dec_char (c : byte) : option sextet :=
  sextet_of_nat <$> find_index c encodeURL.

(** Three bytes are 24 bits, cut into four groups of six. *)
Definition split3 (x y z : byte) : sextet * sextet * sextet * sextet :=
  let '(x0, (x1, (x2, (x3, (x4, (x5, (x6, x7))))))) := Corelib.Init.Byte.to_bits x in
  let '(y0, (y1, (y2, (y3, (y4, (y5, (y6, y7))))))) := Corelib.Init.Byte.to_bits y in
  let '(z0, (z1, (z2, (z3, (z4, (z5, (z6, z7))))))) := Corelib.Init.Byte.to_bits z in
  ((x7, x6, x5, x4, x3, x2), (x1, x0, y7, y6, y5, y4),
   (y3, y2, y1, y0, z7, z6), (z5, z4, z3, z2, z1, z0)).

Definition join4 (s0 s1 s2 s3 : sextet) : byte * byte * byte :=
  let '(a5, a4, a3, a2, a1, a0) := s0 in
  let '(b5, b4, b3, b2, b1, b0) := s1 in
  let '(c5, c4, c3, c2, c1, c0) := s2 in
  let '(d5, d4, d3, d2, d1, d0) := s3 in
  (Corelib.Init.Byte.of_bits (b4, (b5, (a0, (a1, (a2, (a3, (a4, a5))))))),
   Corelib.Init.Byte.of_bits (c2, (c3, (c4, (c5, (b0, (b1, (b2, b3))))))),
   Corelib.Init.Byte.of_bits (d0, (d1, (d2, (d3, (d4, (d5, (c0, c1)))))))).

Definition zero6 : sextet := (false, false, false, false, false, false).

Fixpoint Encode (src : list byte) : list byte :=
  match src with
  | [] => []
  | [x] =>
      let '(s0, s1, _, _) := split3 x x00 x00 in
      [enc_char s0; enc_char s1; padChar; padChar]
  | [x; y] =>
      let '(s0, s1, s2, _) := split3 x y x00 in
      [enc_char s0; enc_char s1; enc_char s2; padChar]
  | x :: y :: z :: rest =>
      let '(s0, s1, s2, s3) := split3 x y z in
      enc_char s0 :: enc_char s1 :: enc_char s2 :: enc_char s3 :: Encode rest
  end.

(** One quantum of four characters at a time.  Padding is accepted only
    in the last quantum, as [==] or [=], and nothing may follow it. *)
Fixpoint decodeQuanta (src : list byte) : option (list byte) :=
  match src with
  | [] => Some []
  | c0 :: c1 :: c2 :: c3 :: rest =>
      match dec_char c0, dec_char c1 with
      | Some s0, Some s1 =>
          match dec_char c2, dec_char c3 with
          | Some s2, Some s3 =>
              let '(x, y, z) := join4 s0 s1 s2 s3 in
              (fun t => x :: y :: z :: t) <$> decodeQuanta rest
          | Some s2, None =>
              if decide (c3 = padChar /\ rest = [])
              then let '(x, y, _) := join4 s0 s1 s2 zero6 in Some [x; y]
              else None
          | None, _ =>
              if decide (c2 = padChar /\ c3 = padChar /\ rest = [])
              then let '(x, _, _) := join4 s0 s1 zero6 zero6 in Some [x]
              else None
          end
      | _, _ => None
      end
  | _ => None
  end.

Definition is_newline (c : byte) : bool :=
  bool_decide (c = charCR) || bool_decide (c = charLF).

Definition EncodeToString (src : list byte) : string :=
  string_of_list_byte (Encode src).

(** Carriage returns and line feeds are skipped. *)
Definition DecodeString (s : string) : option (list byte) :=
  decodeQuanta (List.filter (fun c => negb (is_newline c)) (list_byte_of_string s)).

End base64.

(** ** Keys *)

(** [SkykeyID] is [[SkykeyIDLen]byte]. *)
Abbreviation SkykeyID := (list byte).

Definition SkykeyIDLen : nat := 16.
Definition MaxKeyNameLen : nat := 128.
Definition headerLen : nat := types.SpecifierLen + types.SpecifierLen + 8.

Definition skykeyVersionString : string := "1.4.4".
Definition skykeyVersion : list byte := types.NewSpecifier skykeyVersionString.
Definition SkykeySpecifier : list byte := types.NewSpecifier "Skykey".
Definition SkykeyFileMagic : list byte := types.NewSpecifier "SkykeyFile".

Record Skykey := mkSkykey {
  Name : string;
  CipherType : crypto.CipherType;
  Entropy : list byte
}.

#[global] Instance Skykey_eq_dec : EqDecision Skykey.
Proof. solve_decision. Defined.

Section Keys.

Context `{Cr : crypto.Package} `{En : encoding.Package}.

(** [marshalSia] into a writer that cannot fail: the wire form. *)
Definition marshalSia (sk : Skykey) : list byte :=
  encoding.EncodePrefixed (list_byte_of_string (Name sk))
  ++ CipherType sk
  ++ encoding.EncodePrefixed (Entropy sk).

(** [unmarshalSia] from the bytes the reader still holds.  The three
    [Decode] calls run whatever happens and the decoder's error is looked
    at once, at the end; on success the key comes with the unread rest. *)
Definition unmarshalSia (r : list byte) : result (Skykey * list byte) :=
  let d := encoding.NewDecoder r encoding.DefaultAllocLimit in
  let (name, d) := encoding.DecodePrefixed d in
  let (ct, d) := encoding.DecodeArray crypto.CipherTypeLen d in
  let (entropy, d) := encoding.DecodePrefixed d in
  match encoding.dec_err d with
  | Some e => Err e
  | None => Ok (mkSkykey (string_of_list_byte name) ct entropy, encoding.dec_in d)
  end.

(** A key the decoder takes back: the name and the entropy are within the
    allocation limit and the cipher type has its fixed width. *)
Definition decodable (k : Skykey) : Prop :=
  (N.of_nat (String.length (Name k)) <= encoding.DefaultAllocLimit)%N
  /\ (N.of_nat (String.length (Name k)) < 2 ^ 64)%N
  /\ length (CipherType k) = crypto.CipherTypeLen
  /\ (N.of_nat (length (Entropy k)) <= encoding.DefaultAllocLimit)%N
  /\ (N.of_nat (length (Entropy k)) < 2 ^ 64)%N.

Definition ToString (sk : Skykey) : string :=
  base64.EncodeToString (marshalSia sk).

Definition FromString (s : string) : result Skykey :=
  match base64.DecodeString s with
  | None => Err errCorruptBase64
  | Some keyBytes => p <- unmarshalSia keyBytes ;; Ok (fst p)
  end.

(** [ID]: the nonce is left out of the hash for [TypeXChaCha20] only. *)
Definition ID (sk : Skykey) : result SkykeyID :=
  entropy <- (if decide (CipherType sk = crypto.TypeXChaCha20)
              then of_slice (slice_to chacha.KeySize (Entropy sk))
              else Ok (Entropy sk)) ;;
  let h := crypto.HashAll [SkykeySpecifier; CipherType sk; entropy] in
  Ok (copy (replicate SkykeyIDLen x00) (take SkykeyIDLen h)).

Definition SkykeyID_ToString (id : SkykeyID) : string :=
  base64.EncodeToString id.

Definition SkykeyID_FromString (s : string) : result SkykeyID :=
  match base64.DecodeString s with
  | None => Err errCorruptBase64
  | Some idBytes =>
      if decide (length idBytes <> SkykeyIDLen)
      then Err errInvalidIDLength
      else Ok (copy (replicate SkykeyIDLen x00) idBytes)
  end.

Definition equals (sk otherKey : Skykey) : bool :=
  bool_decide (Name sk = Name otherKey)
  && bool_decide (CipherType sk = CipherType otherKey)
  && bool_decide (Entropy sk = Entropy otherKey).

Definition SubkeyWithNonce (sk : Skykey) (nonce : list byte) : result Skykey :=
  if decide (length nonce <> chacha.XNonceSize)
  then Err errIncorrectNonceSize
  else
    let entropy := replicate (chacha.KeySize + chacha.XNonceSize) x00 in
    key <- of_slice (slice_to chacha.KeySize (Entropy sk)) ;;
    let entropy :=
      copy (take chacha.KeySize entropy) key ++ drop chacha.KeySize entropy in
    let entropy :=
      take chacha.KeySize entropy ++ copy (drop chacha.KeySize entropy) nonce in
    if crypto.NewSiaKey (CipherType sk) entropy
    then Ok (mkSkykey (Name sk) (CipherType sk) entropy)
    else Err errCreatingSubkey.

Definition Nonce (sk : Skykey) : result (list byte) :=
  tail <- of_slice (slice_from chacha.KeySize (Entropy sk)) ;;
  Ok (copy (replicate chacha.XNonceSize x00) tail).

Definition DeriveSubkey (sk : Skykey) (derivation : list byte) : result Skykey :=
  nonce <- Nonce sk ;;
  let derivedNonceHash :=
    crypto.HashAll [nonce; derivation] in
  derivedNonce <- of_slice (slice_to chacha.XNonceSize derivedNonceHash) ;;
  SubkeyWithNonce sk derivedNonce.

(** [GenerateFileSpecificSubkey]; [random] is what [fastrand.Read] put
    into the fresh nonce buffer. *)
Definition GenerateFileSpecificSubkey (sk : Skykey) (random : list byte)
  : result Skykey :=
  SubkeyWithNonce sk (copy (replicate chacha.XNonceSize x00) random).

Definition CipherKey (sk : Skykey) : bool :=
  crypto.NewSiaKey (CipherType sk) (Entropy sk).

End Keys.

(** ** The manager *)

Record SkykeyManager := mkManager {
  idsByName : gmap string SkykeyID;
  keysByID : gmap SkykeyID Skykey;
  version : list byte;
  fileLen : N
}.

(** What a method of the manager works on: the manager behind the
    pointer, the bytes of the persist file, and the step of the next disk
    operation that the environment lets fail, if any. *)
Record world := mkWorld {
  w_sm : SkykeyManager;
  w_file : list byte;
  w_fault : option io_step
}.

(** State and errors: an error or a panic keeps the state reached. *)
Definition M (A : Type) : Type := world -> result A * world.

Definition ret {A} (a : A) : M A := fun w => (Ok a, w).

Definition throw {A} (e : error) : M A := fun w => (Err e, w).

Definition mbind {A B} (m : M A) (k : A -> M B) : M B :=
  fun w =>
    match m w with
    | (Ok a, w') => k a w'
    | (Err e, w') => (Err e, w')
    | (Panic, w') => (Panic, w')
    end.

Notation "x <-- m ;;; k" := (mbind m (fun x => k))
  (at level 100, m at next level, right associativity).
Notation "m ;;; k" := (mbind m (fun _ => k))
  (at level 100, right associativity).

Definition lift {A} (r : result A) : M A := fun w => (r, w).

Definition get_sm : M SkykeyManager := fun w => (Ok (w_sm w), w).

Definition modify_sm (f : SkykeyManager -> SkykeyManager) : M unit :=
  fun w => (Ok tt, mkWorld (f (w_sm w)) (w_file w) (w_fault w)).

Definition get_file : M (list byte) := fun w => (Ok (w_file w), w).

Definition put_file (f : list byte) : M unit :=
  fun w => (Ok tt, mkWorld (w_sm w) f (w_fault w)).

(** A disk operation that fails when the environment says so. *)
Definition io (s : io_step) : M unit :=
  fun w => if decide (w_fault w = Some s) then (Err (errIO s), w) else (Ok tt, w).

Definition uint64 (n : N) : N := (n mod 2 ^ 64)%N.

(** [int(x)] for a [uint64] [x]. *)
Definition int_of_uint64 (n : N) : Z :=
  if (n <? 2 ^ 63)%N then Z.of_N n else (Z.of_N n - 2 ^ 64)%Z.

(** Writing [data] at offset [off]; a hole before it reads as zeros. *)
Definition write_at (off : nat) (data file : list byte) : list byte :=
  take off (file ++ replicate (off - length file) x00)
  ++ data ++ drop (off + length data) file.

Definition set_maps (name : string) (id : SkykeyID) (sk : Skykey)
  (sm : SkykeyManager) : SkykeyManager :=
  mkManager (<[name := id]> (idsByName sm)) (<[id := sk]> (keysByID sm))
    (version sm) (fileLen sm).

Definition set_version (v : list byte) (sm : SkykeyManager) : SkykeyManager :=
  mkManager (idsByName sm) (keysByID sm) v (fileLen sm).

Definition set_fileLen (n : N) (sm : SkykeyManager) : SkykeyManager :=
  mkManager (idsByName sm) (keysByID sm) (version sm) n.

(** [post m w Q]: running [m] from [w] ends in a result and a state that
    satisfy [Q]. *)
Definition post {A} (m : M A) (w : world) (Q : result A -> world -> Prop) : Prop :=
  Q (fst (m w)) (snd (m w)).

(** What [saveHeader] and [saveKey] can return: success or the failure of
    a disk operation. *)
Definition disk_outcome (r : result unit) : Prop :=
  r = Ok tt \/ exists s, r = Err (errIO s).

Section Manager.

Context `{Cr : crypto.Package} `{Bu : build.Package} `{En : encoding.Package}.

Definition SupportsCipherType (ct : crypto.CipherType) : bool :=
  bool_decide (ct = crypto.TypeXChaCha20).

(** A write of [data] at [off] through the file; [partial s = Some n]
    when [s] is the step that makes this write stop after [n] bytes. *)
Definition write_file (partial : io_step -> option nat) (off : nat)
  (data : list byte) : M unit :=
  fun w =>
    match w_fault w ≫= (fun s => (fun n => (s, n)) <$> partial s) with
    | Some (s, n) =>
        if decide (n < length data)
        then (Err (errIO s),
              mkWorld (w_sm w) (write_at off (take n data) (w_file w)) (w_fault w))
        else (Ok tt, mkWorld (w_sm w) (write_at off data (w_file w)) (w_fault w))
    | None => (Ok tt, mkWorld (w_sm w) (write_at off data (w_file w)) (w_fault w))
    end.

Definition key_write (s : io_step) : option nat :=
  match s with StepWrite n => Some n | _ => None end.

Definition header_write (s : io_step) : option nat :=
  match s with StepHeaderWrite n => Some n | _ => None end.

Definition headerBytes (sm : SkykeyManager) : list byte :=
  SkykeyFileMagic ++ version sm ++ le_bytes 8 (fileLen sm).

Definition saveHeader : M unit :=
  io StepHeaderSeek ;;;
  sm <-- get_sm ;;;
  write_file header_write 0 (headerBytes sm) ;;;
  io StepHeaderSync.

Definition saveKey (skykey : Skykey) : M unit :=
  keyID <-- lift (ID skykey) ;;;
  modify_sm (set_maps (Name skykey) keyID skykey) ;;;
  io StepOpen ;;;
  sm <-- get_sm ;;;
  (if (fileLen sm <? 2 ^ 63)%N then io StepSeek else throw (errIO StepSeek)) ;;;
  write_file key_write (N.to_nat (fileLen sm)) (marshalSia skykey) ;;;
  io StepSync ;;;
  modify_sm (fun sm =>
    set_fileLen (uint64 (fileLen sm + N.of_nat (length (marshalSia skykey)))) sm) ;;;
  saveHeader.

(** [CreateKey]; [fresh] is the entropy of the key that
    [crypto.GenerateSiaKey] draws. *)
Definition CreateKey (name : string) (cipherType : crypto.CipherType)
  (fresh : list byte) : M Skykey :=
  if decide (MaxKeyNameLen < String.length name) then throw errSkykeyNameToolong
  else if negb (SupportsCipherType cipherType) then throw errUnsupportedSkykeyCipherType
  else
    sm <-- get_sm ;;;
    match idsByName sm !! name with
    | Some _ => throw ErrSkykeyWithNameAlreadyExists
    | None =>
        let skykey := mkSkykey name cipherType fresh in
        saveKey skykey ;;;
        ret skykey
    end.

Definition AddKey (sk : Skykey) : M unit :=
  sm <-- get_sm ;;;
  id <-- lift (ID sk) ;;;
  match keysByID sm !! id with
  | Some _ => throw ErrSkykeyWithIDAlreadyExists
  | None =>
      match idsByName sm !! Name sk with
      | Some _ => throw ErrSkykeyWithNameAlreadyExists
      | None => saveKey sk
      end
  end.

Definition IDByName (sm : SkykeyManager) (name : string) : result SkykeyID :=
  match idsByName sm !! name with
  | None => Err errNoSkykeysWithThatName
  | Some id => Ok id
  end.

Definition KeyByName (sm : SkykeyManager) (name : string) : result Skykey :=
  match idsByName sm !! name with
  | None => Err errNoSkykeysWithThatName
  | Some id =>
      match keysByID sm !! id with
      | None => Err errNoSkykeysWithThatID
      | Some key => Ok key
      end
  end.

Definition KeyByID (sm : SkykeyManager) (id : SkykeyID) : result Skykey :=
  match keysByID sm !! id with
  | None => Err errNoSkykeysWithThatID
  | Some key => Ok key
  end.

Definition AllSkykeys (sm : SkykeyManager) : list Skykey :=
  snd <$> map_to_list (keysByID sm).

(** [strings.ReplaceAll(s, string(0x0), "")] on the text of a specifier. *)
Definition stripNUL (bs : list byte) : string :=
  string_of_list_byte (List.filter (fun b => negb (bool_decide (b = x00))) bs).

Definition when_ok {A} (d : encoding.Decoder) (m : M A) (dflt : A) : M A :=
  match encoding.dec_err d with
  | None => m
  | Some _ => ret dflt
  end.

(** [loadHeader]: the read fills a buffer of [headerLen] bytes from the
    start of the file. *)
Definition loadHeader : M unit :=
  io StepRead ;;;
  file <-- get_file ;;;
  let headerBytes := copy (replicate headerLen x00) file in
  let dec := encoding.NewDecoder headerBytes encoding.DefaultAllocLimit in
  let (magic, dec) := encoding.DecodeArray types.SpecifierLen dec in
  if decide (magic <> SkykeyFileMagic) then throw errExpectedMagic
  else
    let (v, dec) := encoding.DecodeArray types.SpecifierLen dec in
    when_ok dec (modify_sm (set_version v)) tt ;;;
    match encoding.dec_err dec with
    | Some e => throw e
    | None =>
        sm <-- get_sm ;;;
        let version := stripNUL (version sm) in
        if negb (build.IsVersion version) then throw errHeaderMissingVersion
        else if (build.VersionCmp skykeyVersionString version <? 0)%Z
        then throw errUnknownVersion
        else
          let (n, dec) := encoding.DecodeUint64 dec in
          when_ok dec (modify_sm (set_fileLen n)) tt ;;;
          match encoding.dec_err dec with
          | Some e => throw e
          | None => ret tt
          end
    end.

(** The loop of [load].  [off] is the offset of the file, which is also
    the value of [n]; the result is the offset at which the loop stops,
    or [None] when [fuel] iterations were not enough. *)
Fixpoint loadKeys (fuel : nat) (off : nat) : M (option nat) :=
  sm <-- get_sm ;;;
  if (Z.of_nat off <? int_of_uint64 (fileLen sm))%Z then
    match fuel with
    | O => ret None
    | S fuel' =>
        file <-- get_file ;;;
        p <-- lift (unmarshalSia (drop off file)) ;;;
        let sk := fst p in
        id <-- lift (ID sk) ;;;
        modify_sm (set_maps (Name sk) id sk) ;;;
        io StepOffset ;;;
        loadKeys fuel' (length file - length (snd p))
    end
  else ret (Some off).

Definition load : M unit :=
  io StepOpen ;;;
  io StepStat ;;;
  file <-- get_file ;;;
  if decide (length file < headerLen) then
    modify_sm (set_version skykeyVersion) ;;;
    modify_sm (set_fileLen (N.of_nat headerLen)) ;;;
    saveHeader
  else
    loadHeader ;;;
    io StepSeek ;;;
    n <-- loadKeys (S (length file)) headerLen ;;;
    sm <-- get_sm ;;;
    match n with
    | Some n =>
        if decide (Z.of_nat n <> int_of_uint64 (fileLen sm))
        then throw errExpectedEntireFile
        else ret tt
    | None => throw errExpectedEntireFile
    end.

Definition emptyManager : SkykeyManager :=
  mkManager ∅ ∅ (replicate types.SpecifierLen x00) 0.

(** [NewSkykeyManager] on a persist directory whose file holds [file]
    (empty when it does not exist yet): the manager, when there is one,
    and the file afterwards. *)
Definition NewSkykeyManager (file : list byte) (fault : option io_step)
  : result SkykeyManager * list byte :=
  match io StepMkdir (mkWorld emptyManager file fault) with
  | (Ok _, w) =>
      match load w with
      | (Ok _, w') => (Ok (w_sm w'), w_file w')
      | (Err e, w') => (Err e, w_file w')
      | (Panic, w') => (Panic, w_file w')
      end
  | (Err e, w) => (Err e, w_file w)
  | (Panic, w) => (Panic, w_file w)
  end.

(** The two maps agree: every identifier that a name leads to is a key of
    [keysByID]. *)
Definition consistent (sm : SkykeyManager) : Prop :=
  forall name id, idsByName sm !! name = Some id -> is_Some (keysByID sm !! id).

(** The states a manager goes through: it is made by [NewSkykeyManager],
    then [CreateKey] and [AddKey] run on it, whatever they return, while
    the environment is free to change the file and to let disk operations
    fail. *)
Inductive reachable : world -> Prop :=
| reach_new file fault sm file' :
    NewSkykeyManager file fault = (Ok sm, file') ->
    reachable (mkWorld sm file' None)
| reach_CreateKey w name ct fresh :
    reachable w -> reachable (snd (CreateKey name ct fresh w))
| reach_AddKey w sk :
    reachable w -> reachable (snd (AddKey sk w))
| reach_env w file fault :
    reachable w -> reachable (mkWorld (w_sm w) file fault).

(** [records file limit off ks off']: from offset [off] the file decodes
    into the keys [ks], one after the other, each starting before [limit],
    and the offset after the last one is [off']. *)
Inductive records (file : list byte) (limit : Z) : nat -> list Skykey -> nat -> Prop :=
| records_nil off : records file limit off [] off
| records_cons off sk rest ks off' :
    (Z.of_nat off < limit)%Z ->
    unmarshalSia (drop off file) = Ok (sk, rest) ->
    records file limit (length file - length rest) ks off' ->
    records file limit off (sk :: ks) off'.

End Manager.

(** ** The file and the maps together *)

Section Persisted.

Context `{Cr : crypto.Package} `{En : encoding.Package}.

(** What storing a key does to the two maps, in [saveKey] and in the loop
    of [load]. *)
Definition store (sk : Skykey) (sm : SkykeyManager) : SkykeyManager :=
  match ID sk with
  | Ok id => set_maps (Name sk) id sk sm
  | _ => sm
  end.

Definition stored (ks : list Skykey) (sm : SkykeyManager) : SkykeyManager :=
  fold_left (fun sm sk => store sk sm) ks sm.

(** The records of the keys [ks], one after the other. *)
Definition recordsOf (ks : list Skykey) : list byte :=
  concat (map marshalSia ks).

(** [persisted ks sm file]: the file is the header of [sm], the records
    of [ks] up to [fileLen], and then anything; the maps of [sm] are those
    that storing [ks] in order gives. *)
Definition persisted (ks : list Skykey) (sm : SkykeyManager) (file : list byte)
  : Prop :=
  (exists junk, file = headerBytes sm ++ recordsOf ks ++ junk)
  /\ fileLen sm = N.of_nat (headerLen + length (recordsOf ks))
  /\ (fileLen sm < 2 ^ 63)%N
  /\ length (version sm) = types.SpecifierLen
  /\ idsByName sm = idsByName (stored ks emptyManager)
  /\ keysByID sm = keysByID (stored ks emptyManager)
  /\ Forall (fun k => decodable k /\ ID k <> Panic) ks.

(** The disk operations of [saveKey] that come before the header is
    rewritten. *)
Definition before_header (s : io_step) (wire : list byte) : Prop :=
  s = StepOpen \/ s = StepSeek \/ s = StepSync \/ s = StepHeaderSeek
  \/ exists n, s = StepWrite n /\ n < length wire.

(** Every key of [keysByID] is stored under its own identifier. *)
Definition own_ids (sm : SkykeyManager) : Prop :=
  forall id k, keysByID sm !! id = Some k -> ID k = Ok id.

(** The identifier of a key, with a default where [ID] panics. *)
Definition idOf (k : Skykey) : SkykeyID :=
  match ID k with
  | Ok id => id
  | _ => []
  end.

(** [AddKey] on each key in turn, up to the first that fails. *)
Fixpoint AddKeys (ks : list Skykey) : M unit :=
  match ks with
  | [] => ret tt
  | k :: ks' => AddKey k ;;; AddKeys ks'
  end.

End Persisted.

(** ** A sample environment

    One instance of each imported package, to run the definitions on
    concrete inputs.  The cipher package knows two types: the supported
    one, whose entropy is a key and a nonce, and a plain-text type whose
    key ignores the entropy.  The hash keeps the last 32 bytes of its
    input, latest first.  Versions are dotted decimal numbers, compared
    number by number and then by length. *)
Module Sample.

Definition TypeXChaCha20 : crypto.CipherType := types.NewSpecifier "xchacha20".
Definition TypePlain : crypto.CipherType := types.NewSpecifier "plaintext".

Definition HashAll (parts : list (list byte)) : list byte :=
  take 32 (rev (concat parts) ++ replicate 32 x00).

Definition NewSiaKey (ct : crypto.CipherType) (entropy : list byte) : bool :=
  if decide (ct = TypeXChaCha20)
  then bool_decide (length entropy = chacha.KeySize + chacha.XNonceSize)
  else bool_decide (ct = TypePlain).

#[export] Instance Cr : crypto.Package :=
  {| crypto.TypeXChaCha20 := TypeXChaCha20;
     crypto.HashAll := HashAll;
     crypto.NewSiaKey := NewSiaKey |}.

Definition digit (c : ascii) : option N :=
  let n := N_of_ascii c in
  if (48 <=? n)%N && (n <=? 57)%N then Some (n - 48)%N else None.

Fixpoint atoi_go (acc : N) (s : string) : option N :=
  match s with
  | EmptyString => Some acc
  | String c s' =>
      match digit c with
      | Some d => atoi_go (10 * acc + d)%N s'
      | None => None
      end
  end.

Definition atoi (s : string) : option N :=
  match s with
  | EmptyString => None
  | _ => atoi_go 0 s
  end.

(** [strings.Split(s, ".")]. *)
Fixpoint split_dots (cur : string) (s : string) : list string :=
  match s with
  | EmptyString => [String.rev cur]
  | String c s' =>
      if Ascii.eqb c "."%char
      then String.rev cur :: split_dots EmptyString s'
      else split_dots (String c cur) s'
  end.

Definition IsVersion (s : string) : bool :=
  forallb (fun n => bool_decide (is_Some (atoi n))) (split_dots EmptyString s).

Fixpoint cmp_nums (a b : list string) : Z :=
  match a, b with
  | [], [] => 0
  | [], _ :: _ => -1
  | _ :: _, [] => 1
  | x :: a', y :: b' =>
      let xi := default 0%N (atoi x) in
      let yi := default 0%N (atoi y) in
      if (xi <? yi)%N then -1
      else if (yi <? xi)%N then 1
      else cmp_nums a' b'
  end.

Definition VersionCmp (a b : string) : Z :=
  cmp_nums (split_dots EmptyString a) (split_dots EmptyString b).

#[export] Instance Bu : build.Package :=
  {| build.IsVersion := IsVersion; build.VersionCmp := VersionCmp |}.

#[export] Instance En : encoding.Package :=
  {| encoding.DefaultAllocLimit := 5000000%N |}.

(** A key of the supported type: 32 key bytes [kb] and 24 nonce bytes
    [nb]. *)
Definition key (name : string) (kb nb : byte) : Skykey :=
  mkSkykey name TypeXChaCha20
    (replicate chacha.KeySize kb ++ replicate chacha.XNonceSize nb).

(** A persist file holding just the header. *)
Definition freshFile : list byte :=
  snd (NewSkykeyManager [] None).

End Sample.

(** The manager of a new persist directory and its file, which holds the
    header and nothing else. *)
Definition freshManager : SkykeyManager :=
  set_fileLen (N.of_nat headerLen) (set_version skykeyVersion emptyManager).

Definition freshWorld : world :=
  mkWorld freshManager (headerBytes freshManager) None.

(** A name of 129 bytes. *)
Definition longName : string :=
  "aaaaaaaaaaaaaaaaaaaaaaaaaaaaaaaaaaaaaaaaaaaaaaaaaaaaaaaaaaaaaaaaaaaaaaaaaaaaaaaaaaaaaaaaaaaaaaaaaaaaaaaaaaaaaaaaaaaaaaaaaaaaaaaaa".

(** * Properties *)

(** ** Little-endian integers *)

Section LittleEndian.

Local Open Scope N_scope.

Lemma to_N_byte_of_N (n : N) : Byte.to_N (byte_of_N n) = n mod 256.
Proof.
  unfold byte_of_N.
  destruct (Byte.of_N (n mod 256)) as [b|] eqn:E.
  - now apply Byte.to_of_N.
  - apply Byte.of_N_None_iff in E.
    pose proof (N.mod_upper_bound n 256). lia.
Qed.

Lemma byte_of_N_to_N (b : byte) (m : N) : byte_of_N (Byte.to_N b + 256 * m) = b.
Proof.
  unfold byte_of_N.
  pose proof (Byte.to_N_bounded b) as Hb.
  rewrite (N.mul_comm 256 m), N.Div0.mod_add, N.mod_small by lia.
  now rewrite Byte.of_to_N.
Qed.

Lemma length_le_bytes (k : nat) (n : N) : length (le_bytes k n) = k.
Proof. revert n. induction k as [|k IH]; intros n; simpl; [reflexivity|]. now rewrite IH. Qed.

Lemma le_value_le_bytes (k : nat) (n : N) :
  le_value (le_bytes k n) = n mod 256 ^ N.of_nat k.
Proof.
  revert n. induction k as [|k IH]; intros n.
  - simpl. now rewrite N.mod_1_r.
  - cbn [le_bytes le_value]. rewrite IH, to_N_byte_of_N.
    rewrite Nat2N.inj_succ, N.pow_succ_r'.
    rewrite N.Div0.mod_mul_r. lia.
Qed.

Lemma le_bytes_le_value (bs : list byte) : le_bytes (length bs) (le_value bs) = bs.
Proof.
  induction bs as [|b bs IH]; [reflexivity|].
  cbn [length le_bytes le_value]. rewrite byte_of_N_to_N. f_equal.
  pose proof (Byte.to_N_bounded b).
  rewrite (N.mul_comm 256 (le_value bs)), N.div_add by lia.
  rewrite (N.div_small (Byte.to_N b)) by lia. exact IH.
Qed.

Lemma le_value_bound (bs : list byte) : le_value bs < 256 ^ N.of_nat (length bs).
Proof.
  induction bs as [|b bs IH]; [simpl; lia|].
  cbn [length le_value]. rewrite Nat2N.inj_succ, N.pow_succ_r'.
  pose proof (Byte.to_N_bounded b). lia.
Qed.

Lemma le_value_le_bytes_small (k : nat) (n : N) :
  n < 256 ^ N.of_nat k -> le_value (le_bytes k n) = n.
Proof. intros H. rewrite le_value_le_bytes. now apply N.mod_small. Qed.

End LittleEndian.

(** ** The codec *)

Section Codec.

Import encoding.

Lemma ReadFull_app (a rest : list byte) (lim : N) :
  ReadFull (length a) (mkDecoder (a ++ rest) lim None)
  = (a, mkDecoder rest lim None).
Proof.
  unfold ReadFull. cbn [dec_err dec_in maxAlloc].
  rewrite decide_True by (rewrite length_app; lia).
  now rewrite take_app_length, drop_app_length.
Qed.

Lemma ReadFull_ok (k : nat) (d d' : Decoder) (bs : list byte) :
  ReadFull k d = (bs, d') -> dec_err d' = None ->
  dec_err d = None /\ length bs = k /\ dec_in d = bs ++ dec_in d'
  /\ maxAlloc d' = maxAlloc d.
Proof.
  unfold ReadFull. intros H Hd'.
  destruct (dec_err d) eqn:E.
  - injection H as <- <-. congruence.
  - destruct (decide (k <= length (dec_in d))) as [Hk|Hk].
    + injection H as <- <-. cbn. repeat split.
      * rewrite length_take. lia.
      * now rewrite take_drop.
    + injection H as <- <-. discriminate.
Qed.

Lemma DecodePrefixed_app (bs rest : list byte) (lim : N) :
  (N.of_nat (length bs) <= lim)%N ->
  (N.of_nat (length bs) < 2 ^ 64)%N ->
  DecodePrefixed (mkDecoder (EncodePrefixed bs ++ rest) lim None)
  = (bs, mkDecoder rest lim None).
Proof.
  intros Hlim H64. unfold DecodePrefixed, EncodePrefixed.
  rewrite <- app_assoc.
  rewrite <- (length_le_bytes 8 (N.of_nat (length bs))) at 1.
  rewrite ReadFull_app. cbn [dec_err maxAlloc].
  rewrite le_value_le_bytes_small by exact H64.
  destruct (N.leb_spec (N.of_nat (length bs)) lim) as [_|Hgt]; [|lia].
  rewrite Nat2N.id. apply ReadFull_app.
Qed.

Lemma DecodePrefixed_ok (d d' : Decoder) (bs : list byte) :
  DecodePrefixed d = (bs, d') -> dec_err d' = None ->
  dec_err d = None /\ dec_in d = EncodePrefixed bs ++ dec_in d'
  /\ maxAlloc d' = maxAlloc d.
Proof.
  unfold DecodePrefixed. intros H Hd'.
  destruct (ReadFull 8 d) as [p d1] eqn:E1.
  destruct (dec_err d1) eqn:Ed1.
  - injection H as <- <-. congruence.
  - destruct (ReadFull_ok _ _ _ _ E1 Ed1) as (Hd & Hp & Hin & Hlim).
    destruct (le_value p <=? maxAlloc d1)%N.
    + destruct (ReadFull_ok _ _ _ _ H Hd') as (_ & Hbs & Hin1 & Hlim1).
      repeat split; [exact Hd| |congruence].
      rewrite Hin, Hin1. unfold EncodePrefixed.
      rewrite Hbs, N2Nat.id, <- Hp, le_bytes_le_value.
      now rewrite app_assoc.
    + injection H as <- <-. discriminate.
Qed.

End Codec.

Section KeyCodec.

Context `{Cr : crypto.Package} `{En : encoding.Package}.

Lemma length_list_byte_of_string (s : string) :
  length (list_byte_of_string s) = String.length s.
Proof.
  unfold list_byte_of_string. rewrite length_map.
  induction s as [|c s IH]; [reflexivity|].
  cbn [list_ascii_of_string String.length length]. now rewrite IH.
Qed.

Lemma unmarshalSia_marshalSia (k : Skykey) (rest : list byte) :
  decodable k -> unmarshalSia (marshalSia k ++ rest) = Ok (k, rest).
Proof.
  intros (Hn & Hn64 & Hct & He & He64).
  unfold unmarshalSia, marshalSia, encoding.NewDecoder.
  rewrite <- !app_assoc.
  rewrite DecodePrefixed_app
    by (rewrite length_list_byte_of_string; assumption).
  unfold encoding.DecodeArray. rewrite <- Hct, ReadFull_app.
  rewrite DecodePrefixed_app by assumption.
  cbn [encoding.dec_err encoding.dec_in].
  rewrite string_of_list_byte_of_string. now destruct k.
Qed.

Lemma marshalSia_unmarshalSia (r rest : list byte) (k : Skykey) :
  unmarshalSia r = Ok (k, rest) -> r = marshalSia k ++ rest.
Proof.
  unfold unmarshalSia, encoding.NewDecoder.
  destruct (encoding.DecodePrefixed _) as [name d1] eqn:E1.
  destruct (encoding.DecodeArray _ d1) as [ct d2] eqn:E2.
  destruct (encoding.DecodePrefixed d2) as [entropy d3] eqn:E3.
  destruct (encoding.dec_err d3) eqn:Ed3; [discriminate|].
  intros [= <- <-].
  destruct (DecodePrefixed_ok _ _ _ E3 Ed3) as (Ed2 & Hin2 & _).
  destruct (ReadFull_ok _ _ _ _ E2 Ed2) as (Ed1 & Hct & Hin1 & _).
  destruct (DecodePrefixed_ok _ _ _ E1 Ed1) as (_ & Hin0 & _).
  cbn [encoding.dec_in] in Hin0. rewrite Hin0, Hin1, Hin2.
  unfold marshalSia. cbn [Name CipherType Entropy].
  rewrite list_byte_of_string_of_list_byte. now rewrite <- !app_assoc.
Qed.

Lemma unmarshalSia_decodable (r rest : list byte) (k : Skykey) :
  unmarshalSia r = Ok (k, rest) -> length (CipherType k) = crypto.CipherTypeLen.
Proof.
  unfold unmarshalSia, encoding.NewDecoder.
  destruct (encoding.DecodePrefixed _) as [name d1] eqn:E1.
  destruct (encoding.DecodeArray _ d1) as [ct d2] eqn:E2.
  destruct (encoding.DecodePrefixed d2) as [entropy d3] eqn:E3.
  destruct (encoding.dec_err d3) eqn:Ed3; [discriminate|].
  intros [= <- <-].
  destruct (DecodePrefixed_ok _ _ _ E3 Ed3) as (Ed2 & _).
  now destruct (ReadFull_ok _ _ _ _ E2 Ed2) as (_ & Hct & _).
Qed.

End KeyCodec.

(** ** Base64 *)

Section Base64.

Import base64.

Lemma list_ind3 {A} (P : list A -> Prop) :
  P [] -> (forall x, P [x]) -> (forall x y, P [x; y]) ->
  (forall x y z l, P l -> P (x :: y :: z :: l)) ->
  forall l, P l.
Proof.
  intros H0 H1 H2 H3 l.
  assert (H : forall n l, length l <= n -> P l).
  { clear l. induction n as [|n IH]; intros l Hl.
    - destruct l; [exact H0 | simpl in Hl; lia].
    - destruct l as [|x [|y [|z l]]]; auto.
      apply H3, IH. simpl in Hl. lia. }
  apply (H (length l)). lia.
Qed.

Lemma dec_enc_char (s : sextet) : dec_char (enc_char s) = Some s.
Proof.
  destruct s as [[[[[a b] c] d] e] f].
  destruct a, b, c, d, e, f; vm_compute; reflexivity.
Qed.

Lemma enc_char_not_newline (s : sextet) : is_newline (enc_char s) = false.
Proof.
  destruct s as [[[[[a b] c] d] e] f].
  destruct a, b, c, d, e, f; vm_compute; reflexivity.
Qed.

Lemma dec_char_pad : dec_char padChar = None.
Proof. vm_compute. reflexivity. Qed.

Lemma join4_split3 (x y z : byte) :
  (let '(s0, s1, s2, s3) := split3 x y z in join4 s0 s1 s2 s3) = (x, y, z).
Proof.
  unfold split3, join4.
  destruct (Corelib.Init.Byte.to_bits x)
    as [x0 [x1 [x2 [x3 [x4 [x5 [x6 x7]]]]]]] eqn:Hx.
  destruct (Corelib.Init.Byte.to_bits y)
    as [y0 [y1 [y2 [y3 [y4 [y5 [y6 y7]]]]]]] eqn:Hy.
  destruct (Corelib.Init.Byte.to_bits z)
    as [z0 [z1 [z2 [z3 [z4 [z5 [z6 z7]]]]]]] eqn:Hz.
  rewrite <- Hx, <- Hy, <- Hz.
  now rewrite !Corelib.Init.Byte.of_bits_to_bits.
Qed.

(** The padded forms: the bytes that are there do not depend on the bits
    of the missing ones. *)
Lemma join4_split3_one (x : byte) :
  (let '(s0, s1, _, _) := split3 x x00 x00 in
   let '(x', _, _) := join4 s0 s1 zero6 zero6 in x') = x.
Proof.
  unfold split3, join4, zero6.
  destruct (Corelib.Init.Byte.to_bits x)
    as [x0 [x1 [x2 [x3 [x4 [x5 [x6 x7]]]]]]] eqn:Hx.
  unfold x00. cbn [Corelib.Init.Byte.to_bits].
  rewrite <- Hx. apply Corelib.Init.Byte.of_bits_to_bits.
Qed.

Lemma join4_split3_two (x y : byte) :
  (let '(s0, s1, s2, _) := split3 x y x00 in
   let '(x', y', _) := join4 s0 s1 s2 zero6 in (x', y')) = (x, y).
Proof.
  unfold split3, join4, zero6.
  destruct (Corelib.Init.Byte.to_bits x)
    as [x0 [x1 [x2 [x3 [x4 [x5 [x6 x7]]]]]]] eqn:Hx.
  destruct (Corelib.Init.Byte.to_bits y)
    as [y0 [y1 [y2 [y3 [y4 [y5 [y6 y7]]]]]]] eqn:Hy.
  unfold x00. cbn [Corelib.Init.Byte.to_bits].
  rewrite <- Hx, <- Hy.
  now rewrite !Corelib.Init.Byte.of_bits_to_bits.
Qed.

Lemma decodeQuanta_unfold (c0 c1 c2 c3 : byte) (rest : list byte) :
  decodeQuanta (c0 :: c1 :: c2 :: c3 :: rest) =
  match dec_char c0, dec_char c1 with
  | Some s0, Some s1 =>
      match dec_char c2, dec_char c3 with
      | Some s2, Some s3 =>
          let '(x, y, z) := join4 s0 s1 s2 s3 in
          (fun t => x :: y :: z :: t) <$> decodeQuanta rest
      | Some s2, None =>
          if decide (c3 = padChar /\ rest = [])
          then let '(x, y, _) := join4 s0 s1 s2 zero6 in Some [x; y]
          else None
      | None, _ =>
          if decide (c2 = padChar /\ c3 = padChar /\ rest = [])
          then let '(x, _, _) := join4 s0 s1 zero6 zero6 in Some [x]
          else None
      end
  | _, _ => None
  end.
Proof. reflexivity. Qed.

Lemma decodeQuanta_Encode (src : list byte) : decodeQuanta (Encode src) = Some src.
Proof.
  induction src as [|x|x y|x y z l IH] using list_ind3.
  - reflexivity.
  - cbn [Encode]. pose proof (join4_split3_one x) as H.
    destruct (split3 x x00 x00) as [[[s0 s1] s2] s3].
    rewrite decodeQuanta_unfold, !dec_enc_char, dec_char_pad.
    rewrite decide_True by auto.
    destruct (join4 s0 s1 zero6 zero6) as [[x' y'] z']. now subst.
  - cbn [Encode]. pose proof (join4_split3_two x y) as H.
    destruct (split3 x y x00) as [[[s0 s1] s2] s3].
    rewrite decodeQuanta_unfold, !dec_enc_char, dec_char_pad.
    rewrite decide_True by auto.
    destruct (join4 s0 s1 s2 zero6) as [[x' y'] z']. now inversion H.
  - cbn [Encode]. pose proof (join4_split3 x y z) as H.
    destruct (split3 x y z) as [[[s0 s1] s2] s3].
    rewrite decodeQuanta_unfold, !dec_enc_char, H, IH. reflexivity.
Qed.

Lemma Encode_no_newline (src : list byte) :
  List.filter (fun c => negb (is_newline c)) (Encode src) = Encode src.
Proof.
  assert (Hpad : is_newline padChar = false) by reflexivity.
  induction src as [|x|x y|x y z l IH] using list_ind3.
  - reflexivity.
  - cbn [Encode]. destruct (split3 x x00 x00) as [[[s0 s1] s2] s3].
    cbn [List.filter]. now rewrite !enc_char_not_newline, Hpad.
  - cbn [Encode]. destruct (split3 x y x00) as [[[s0 s1] s2] s3].
    cbn [List.filter]. now rewrite !enc_char_not_newline, Hpad.
  - cbn [Encode]. destruct (split3 x y z) as [[[s0 s1] s2] s3].
    cbn [List.filter]. now rewrite !enc_char_not_newline, IH.
Qed.

Lemma DecodeString_EncodeToString (src : list byte) :
  DecodeString (EncodeToString src) = Some src.
Proof.
  unfold DecodeString, EncodeToString.
  rewrite list_byte_of_string_of_list_byte, Encode_no_newline.
  apply decodeQuanta_Encode.
Qed.

End Base64.

Section KeyProperties.

Context `{Cr : crypto.Package} `{En : encoding.Package}.

(** C8.  Codec and base64 round trip: a key within the limits of the wire
    form is decoded back from its wire form (same name, same cipher type,
    same entropy, nothing left unread), [FromString] undoes [ToString],
    and whatever input decodes to a key is, up to the unread rest, the
    wire form of that key. *)
Theorem codec_roundtrip (k : Skykey) :
  decodable k ->
  unmarshalSia (marshalSia k) = Ok (k, [])
  /\ FromString (ToString k) = Ok k
  /\ (forall r k' rest, unmarshalSia r = Ok (k', rest) -> marshalSia k' ++ rest = r).
Proof.
  intros Hk.
  assert (H1 : unmarshalSia (marshalSia k) = Ok (k, [])).
  { rewrite <- (app_nil_r (marshalSia k)) at 1.
    now apply unmarshalSia_marshalSia. }
  split; [exact H1|]. split.
  - unfold FromString, ToString.
    rewrite DecodeString_EncodeToString, H1. reflexivity.
  - intros r k' rest H. symmetry. now apply marshalSia_unmarshalSia.
Qed.

Lemma copy_same_length {A} (dst src : list A) :
  length dst = length src -> copy dst src = src.
Proof.
  intros H. unfold copy.
  rewrite take_ge by lia. rewrite drop_ge by lia. apply app_nil_r.
Qed.

Lemma length_copy {A} (dst src : list A) : length (copy dst src) = length dst.
Proof. unfold copy. rewrite length_app, length_take, length_drop. lia. Qed.

Lemma slice_to_Some {A} (k : nat) (s t : list A) :
  slice_to k s = Some t -> t = take k s /\ length t = k.
Proof.
  unfold slice_to. destruct (decide (k <= length s)); [|discriminate].
  intros [= <-]. split; [reflexivity|]. rewrite length_take. lia.
Qed.

Lemma slice_to_app {A} (a b : list A) : slice_to (length a) (a ++ b) = Some a.
Proof.
  unfold slice_to. rewrite decide_True by (rewrite length_app; lia).
  now rewrite take_app_length.
Qed.

(** What a subkey is made of: the first [KeySize] bytes of the entropy,
    then the nonce. *)
Lemma SubkeyWithNonce_Ok (sk sub : Skykey) (nonce : list byte) :
  SubkeyWithNonce sk nonce = Ok sub ->
  length nonce = chacha.XNonceSize
  /\ exists key, slice_to chacha.KeySize (Entropy sk) = Some key
     /\ sub = mkSkykey (Name sk) (CipherType sk) (key ++ nonce).
Proof.
  unfold SubkeyWithNonce.
  destruct (decide (length nonce <> chacha.XNonceSize)) as [|Hn]; [discriminate|].
  assert (Hlen : length nonce = chacha.XNonceSize)
    by (destruct (decide (length nonce = chacha.XNonceSize)); [assumption|contradiction]).
  destruct (slice_to chacha.KeySize (Entropy sk)) as [key|] eqn:Hkey; [|discriminate].
  cbn [of_slice bind].
  destruct (slice_to_Some _ _ _ Hkey) as [_ Hk].
  assert (E1 : copy (take chacha.KeySize
                       (replicate (chacha.KeySize + chacha.XNonceSize) x00)) key = key).
  { apply copy_same_length. rewrite length_take, length_replicate, Hk. lia. }
  rewrite E1.
  rewrite (take_app_length' key _ chacha.KeySize (eq_sym Hk)).
  rewrite (drop_app_length' key _ chacha.KeySize (eq_sym Hk)).
  assert (E2 : copy (drop chacha.KeySize
                       (replicate (chacha.KeySize + chacha.XNonceSize) x00)) nonce = nonce).
  { apply copy_same_length. rewrite length_drop, length_replicate, Hlen. lia. }
  rewrite E2.
  destruct (crypto.NewSiaKey (CipherType sk) (key ++ nonce)); [|discriminate].
  intros [= <-]. split; [exact Hlen|]. now exists key.
Qed.

Lemma length_ID (sk : Skykey) (id : SkykeyID) : ID sk = Ok id -> length id = SkykeyIDLen.
Proof.
  unfold ID.
  destruct (if decide (CipherType sk = crypto.TypeXChaCha20)
            then of_slice (slice_to chacha.KeySize (Entropy sk))
            else Ok (Entropy sk)) as [e| |]; cbn [bind]; try discriminate.
  intros [= <-]. rewrite length_copy. reflexivity.
Qed.

(** C3, amended.  For a key of type [TypeXChaCha20] and a nonce of
    [XNonceSize] bytes for which [SubkeyWithNonce] succeeds, the key and
    the subkey have the same identifier, of [SkykeyIDLen] bytes. *)
Theorem ID_SubkeyWithNonce (m sub : Skykey) (n : list byte) :
  CipherType m = crypto.TypeXChaCha20 ->
  length n = chacha.XNonceSize ->
  SubkeyWithNonce m n = Ok sub ->
  exists id, ID m = Ok id /\ ID sub = Ok id /\ length id = SkykeyIDLen.
Proof.
  intros Hct _ Hsub.
  destruct (SubkeyWithNonce_Ok _ _ _ Hsub) as (Hn & key & Hkey & ->).
  destruct (slice_to_Some _ _ _ Hkey) as [_ Hk].
  assert (Hm : ID m = Ok (copy (replicate SkykeyIDLen x00)
                (take SkykeyIDLen
                   (crypto.HashAll [SkykeySpecifier; crypto.TypeXChaCha20; key])))).
  { unfold ID. rewrite Hct, decide_True by reflexivity. now rewrite Hkey. }
  eexists. split; [exact Hm|]. split.
  - unfold ID. cbn [CipherType Entropy]. rewrite Hct, decide_True by reflexivity.
    unfold slice_to. rewrite decide_True by (rewrite length_app; lia).
    now rewrite (take_app_length' key n chacha.KeySize (eq_sym Hk)).
  - now apply length_ID in Hm.
Qed.

End KeyProperties.

(** ** The manager: saving *)

Section Post.

(** Rules for [post], one for each way of building an [M]. *)

Lemma post_bind {A B} (m : M A) (k : A -> M B) (w : world) Q :
  post m w (fun r w1 =>
    match r with
    | Ok a => post (k a) w1 Q
    | Err e => Q (Err e) w1
    | Panic => Q Panic w1
    end) ->
  post (mbind m k) w Q.
Proof. unfold post, mbind. destruct (m w) as [[a|e|] w1]; cbn; auto. Qed.

Lemma post_ret {A} (a : A) (w : world) (Q : result A -> world -> Prop) :
  Q (Ok a) w -> post (ret a) w Q.
Proof. auto. Qed.

Lemma post_throw {A} (e : error) (w : world) (Q : result A -> world -> Prop) :
  Q (Err e) w -> post (throw e) w Q.
Proof. auto. Qed.

Lemma post_lift {A} (r : result A) (w : world) (Q : result A -> world -> Prop) :
  Q r w -> post (lift r) w Q.
Proof. auto. Qed.

Lemma post_get_sm (w : world) (Q : result SkykeyManager -> world -> Prop) :
  Q (Ok (w_sm w)) w -> post get_sm w Q.
Proof. auto. Qed.

Lemma post_get_file (w : world) (Q : result (list byte) -> world -> Prop) :
  Q (Ok (w_file w)) w -> post get_file w Q.
Proof. auto. Qed.

Lemma post_modify_sm f (w : world) (Q : result unit -> world -> Prop) :
  Q (Ok tt) (mkWorld (f (w_sm w)) (w_file w) (w_fault w)) -> post (modify_sm f) w Q.
Proof. auto. Qed.

Lemma post_io (s : io_step) (w : world) (Q : result unit -> world -> Prop) :
  (w_fault w = Some s -> Q (Err (errIO s)) w) ->
  (w_fault w <> Some s -> Q (Ok tt) w) ->
  post (io s) w Q.
Proof. unfold post, io. destruct (decide (w_fault w = Some s)); cbn; auto. Qed.

Lemma post_conseq {A} (m : M A) (w : world) (Q Q' : result A -> world -> Prop) :
  post m w Q -> (forall r w', Q r w' -> Q' r w') -> post m w Q'.
Proof. unfold post. auto. Qed.

End Post.

Ltac wp_step :=
  lazymatch goal with
  | |- post (mbind _ _) _ _ => apply post_bind
  | |- post (ret _) _ _ => apply post_ret
  | |- post (throw _) _ _ => apply post_throw
  | |- post (lift _) _ _ => apply post_lift
  | |- post get_sm _ _ => apply post_get_sm
  | |- post get_file _ _ => apply post_get_file
  | |- post (modify_sm _) _ _ => apply post_modify_sm
  end; cbv beta iota.

Ltac wp := repeat wp_step.

Ltac wp_io H := wp; apply post_io; cbv beta iota; intros H; wp.


Section Saving.

Context `{Cr : crypto.Package} `{Bu : build.Package} `{En : encoding.Package}.

Lemma post_write_file (partial : io_step -> option nat) (off : nat)
  (data : list byte) (w : world) (Q : result unit -> world -> Prop) :
  (forall file', Q (Ok tt) (mkWorld (w_sm w) file' (w_fault w))) ->
  (forall s file', w_fault w = Some s ->
     Q (Err (errIO s)) (mkWorld (w_sm w) file' (w_fault w))) ->
  post (write_file partial off data) w Q.
Proof.
  intros HOk HErr. unfold post, write_file.
  destruct (w_fault w) as [s|] eqn:Hf; cbn; [|apply HOk].
  destruct (partial s) as [n|]; cbn; [|apply HOk].
  destruct (decide (n < length data)); cbn; [now apply HErr | apply HOk].
Qed.

Lemma write_file_no_fault (partial : io_step -> option nat) (off : nat)
  (data : list byte) (w : world) :
  w_fault w = None ->
  write_file partial off data w
  = (Ok tt, mkWorld (w_sm w) (write_at off data (w_file w)) None).
Proof. intros H. unfold write_file. rewrite H. reflexivity. Qed.

(** [saveHeader] leaves the manager alone and fails with disk errors
    only. *)
Lemma saveHeader_post (w : world) :
  post saveHeader w (fun r w' =>
    w_sm w' = w_sm w /\ w_fault w' = w_fault w /\ disk_outcome r).
Proof.
  unfold saveHeader, disk_outcome. wp.
  wp_io Hf; [eauto 6|]. wp.
  wp; apply post_write_file; cbv beta iota; [|cbn; eauto 6].
  intros file'. wp_io Hf1; cbn; eauto 6.
Qed.

Lemma saveHeader_no_fault (w : world) :
  w_fault w = None ->
  saveHeader w
  = (Ok tt, mkWorld (w_sm w) (write_at 0 (headerBytes (w_sm w)) (w_file w)) None).
Proof.
  intros H. unfold saveHeader, mbind, io, get_sm. rewrite H.
  rewrite decide_False by discriminate.
  rewrite write_file_no_fault by exact H. cbn.
  rewrite decide_False by discriminate. reflexivity.
Qed.

(** The identifier is computed or the slice expression panics; there is
    no error. *)
Lemma ID_cases (sk : Skykey) : (exists id, ID sk = Ok id) \/ ID sk = Panic.
Proof.
  unfold ID. destruct (decide (CipherType sk = crypto.TypeXChaCha20)); cbn; eauto.
  destruct (slice_to chacha.KeySize (Entropy sk)); cbn; eauto.
Qed.

(** Whatever the disk does, once the identifier is known the two maps
    hold the key when [saveKey] returns; errors are disk errors. *)
Lemma saveKey_post (sk : Skykey) (id : SkykeyID) (w : world) :
  ID sk = Ok id ->
  post (saveKey sk) w (fun r w' =>
    idsByName (w_sm w') = <[Name sk := id]> (idsByName (w_sm w))
    /\ keysByID (w_sm w') = <[id := sk]> (keysByID (w_sm w))
    /\ version (w_sm w') = version (w_sm w)
    /\ w_fault w' = w_fault w
    /\ disk_outcome r).
Proof.
  intros Hid. unfold saveKey, disk_outcome. rewrite Hid. wp.
  wp_io Hf; [cbn; eauto 10|]. wp.
  cbn [w_sm set_maps fileLen].
  destruct (fileLen (w_sm w) <? 2 ^ 63)%N; [|wp; cbn; eauto 10].
  wp_io Hf1; [cbn; eauto 10|].
  wp; apply post_write_file; cbv beta iota; [|cbn; eauto 10].
  intros file'. wp. wp_io Hf2; [cbn; eauto 10|]. wp.
  eapply post_conseq; [apply saveHeader_post|].
  cbn. intros r w' (-> & -> & Hr). cbn. eauto 10.
Qed.

Lemma saveKey_Panic (sk : Skykey) (w : world) :
  ID sk = Panic -> saveKey sk w = (Panic, w).
Proof. intros H. unfold saveKey, mbind, lift. now rewrite H. Qed.

(** With no failure of the disk, [saveKey] writes the wire form at
    [fileLen], adds its length to [fileLen] and rewrites the header. *)
Lemma saveKey_no_fault (sk : Skykey) (id : SkykeyID) (w : world) :
  ID sk = Ok id -> w_fault w = None -> (fileLen (w_sm w) < 2 ^ 63)%N ->
  let sm' :=
    set_fileLen (uint64 (fileLen (w_sm w) + N.of_nat (length (marshalSia sk))))
      (set_maps (Name sk) id sk (w_sm w)) in
  saveKey sk w
  = (Ok tt,
     mkWorld sm'
       (write_at 0 (headerBytes sm')
          (write_at (N.to_nat (fileLen (w_sm w))) (marshalSia sk) (w_file w)))
       None).
Proof.
  intros Hid Hf Hlen. cbn zeta. apply N.ltb_lt in Hlen.
  destruct w as [sm file f]. cbn [w_sm w_file w_fault] in *. subst f.
  unfold saveKey, mbind, lift, modify_sm, io, get_sm. rewrite Hid.
  cbn [w_sm w_file w_fault set_maps fileLen].
  rewrite decide_False by discriminate.
  cbn [w_sm w_file w_fault set_maps fileLen]. rewrite Hlen.
  rewrite decide_False by discriminate.
  rewrite write_file_no_fault by reflexivity.
  cbn [w_sm w_file w_fault]. rewrite decide_False by discriminate.
  rewrite saveHeader_no_fault by reflexivity. reflexivity.
Qed.

End Saving.

(** ** The manager: creating and adding keys *)

Section Mutations.

Context `{Cr : crypto.Package} `{Bu : build.Package} `{En : encoding.Package}.

(** C7.  [AddKey] on a key whose identifier is already a key of
    [keysByID] returns [ErrSkykeyWithIDAlreadyExists], also when the name
    is taken; when only the name is taken it returns
    [ErrSkykeyWithNameAlreadyExists].  Nothing changes in either case. *)
Theorem AddKey_collisions (sk : Skykey) (id : SkykeyID) (w : world) :
  ID sk = Ok id ->
  (is_Some (keysByID (w_sm w) !! id) ->
     AddKey sk w = (Err ErrSkykeyWithIDAlreadyExists, w))
  /\ (keysByID (w_sm w) !! id = None ->
      is_Some (idsByName (w_sm w) !! Name sk) ->
      AddKey sk w = (Err ErrSkykeyWithNameAlreadyExists, w)).
Proof.
  intros Hid. unfold AddKey, mbind, get_sm, lift, throw. rewrite Hid. split.
  - intros [k ->]. reflexivity.
  - intros -> [i ->]. reflexivity.
Qed.

Local Ltac finish_err :=
  unfold throw; cbn [fst snd]; split; [discriminate | intros ? ?; discriminate].

Lemma CreateKey_checked (name : string) (ct : crypto.CipherType)
  (fresh : list byte) (w : world) :
  String.length name <= MaxKeyNameLen ->
  ct = crypto.TypeXChaCha20 ->
  idsByName (w_sm w) !! name = None ->
  CreateKey name ct fresh w
  = (saveKey (mkSkykey name ct fresh) ;;; ret (mkSkykey name ct fresh)) w.
Proof.
  intros Hlen Hct Hname. unfold CreateKey.
  rewrite decide_False by lia.
  unfold SupportsCipherType. rewrite bool_decide_eq_true_2 by exact Hct.
  cbn [negb]. unfold mbind at 1, get_sm. now rewrite Hname.
Qed.

(** C6.  [CreateKey] returns [errSkykeyNameToolong] for a name of more
    than [MaxKeyNameLen] bytes, then [errUnsupportedSkykeyCipherType] for a
    cipher type other than [TypeXChaCha20], then
    [ErrSkykeyWithNameAlreadyExists] for a name that is taken, each time
    leaving everything as it was.  It never looks at [keysByID]: past
    these three tests it is [saveKey] on the new key, whatever [keysByID]
    holds.  So with a working disk it returns the key, stored under its
    name and its identifier and appended to the file, also when that
    identifier is already the one of a stored key, whose entry in
    [keysByID] the new key replaces; and it never returns
    [ErrSkykeyWithIDAlreadyExists].  The key it returns on success has the
    given name and cipher type and the entropy just drawn. *)
Theorem CreateKey_errors (name : string) (ct : crypto.CipherType)
  (fresh : list byte) (w : world) :
  (MaxKeyNameLen < String.length name ->
     CreateKey name ct fresh w = (Err errSkykeyNameToolong, w))
  /\ (String.length name <= MaxKeyNameLen -> ct <> crypto.TypeXChaCha20 ->
      CreateKey name ct fresh w = (Err errUnsupportedSkykeyCipherType, w))
  /\ (String.length name <= MaxKeyNameLen -> ct = crypto.TypeXChaCha20 ->
      is_Some (idsByName (w_sm w) !! name) ->
      CreateKey name ct fresh w = (Err ErrSkykeyWithNameAlreadyExists, w))
  /\ (String.length name <= MaxKeyNameLen -> ct = crypto.TypeXChaCha20 ->
      idsByName (w_sm w) !! name = None ->
      let sk := mkSkykey name ct fresh in
      CreateKey name ct fresh w = (saveKey sk ;;; ret sk) w
      /\ forall id, ID sk = Ok id ->
         w_fault w = None -> (fileLen (w_sm w) < 2 ^ 63)%N ->
         let sm' :=
           set_fileLen
             (uint64 (fileLen (w_sm w) + N.of_nat (length (marshalSia sk))))
             (set_maps name id sk (w_sm w)) in
         CreateKey name ct fresh w
         = (Ok sk,
            mkWorld sm'
              (write_at 0 (headerBytes sm')
                 (write_at (N.to_nat (fileLen (w_sm w))) (marshalSia sk)
                    (w_file w)))
              None)
         /\ idsByName sm' = <[name := id]> (idsByName (w_sm w))
         /\ keysByID sm' = <[id := sk]> (keysByID (w_sm w))
         /\ KeyByName sm' name = Ok sk /\ KeyByID sm' id = Ok sk)
  /\ fst (CreateKey name ct fresh w) <> Err ErrSkykeyWithIDAlreadyExists
  /\ (forall sk, fst (CreateKey name ct fresh w) = Ok sk ->
      sk = mkSkykey name ct fresh
      /\ String.length name <= MaxKeyNameLen /\ ct = crypto.TypeXChaCha20
      /\ idsByName (w_sm w) !! name = None).
Proof.
  assert (Hgen :
    fst (CreateKey name ct fresh w) <> Err ErrSkykeyWithIDAlreadyExists
    /\ (forall sk, fst (CreateKey name ct fresh w) = Ok sk ->
        sk = mkSkykey name ct fresh
        /\ String.length name <= MaxKeyNameLen /\ ct = crypto.TypeXChaCha20
        /\ idsByName (w_sm w) !! name = None)).
  { unfold CreateKey.
    destruct (decide (MaxKeyNameLen < String.length name)) as [|Hlen];
      [finish_err|].
    unfold SupportsCipherType.
    destruct (decide (ct = crypto.TypeXChaCha20)) as [Hct|Hct];
      [rewrite bool_decide_eq_true_2 by exact Hct
      |rewrite bool_decide_eq_false_2 by exact Hct;
       finish_err].
    cbn [negb]. unfold mbind, get_sm. cbv beta iota.
    destruct (idsByName (w_sm w) !! name) eqn:Hname;
      [finish_err|].
    unfold ret.
    destruct (ID_cases (mkSkykey name ct fresh)) as [[id Hid] | HP].
    - pose proof (saveKey_post _ id w Hid) as Hpost. unfold post in Hpost.
      destruct (saveKey (mkSkykey name ct fresh) w) as [r w'].
      cbn [fst snd] in Hpost. destruct Hpost as (_ & _ & _ & _ & [-> | [s ->]]).
      + cbn. split; [discriminate|]. intros sk [= <-]. repeat split; [lia|assumption].
      + cbn. split; [discriminate | intros ? [=]].
    - rewrite saveKey_Panic by exact HP. cbn. split; [discriminate | intros ? [=]]. }
  split; [|split; [|split; [|split]]]; [| | | |exact Hgen].
  - intros Hlen. unfold CreateKey. now rewrite decide_True by exact Hlen.
  - intros Hlen Hct. unfold CreateKey. rewrite decide_False by lia.
    unfold SupportsCipherType. now rewrite bool_decide_eq_false_2 by exact Hct.
  - intros Hlen Hct [i Hname]. unfold CreateKey. rewrite decide_False by lia.
    unfold SupportsCipherType. rewrite bool_decide_eq_true_2 by exact Hct.
    cbn [negb]. unfold mbind, get_sm, throw. now rewrite Hname.
  - intros Hlen Hct Hname sk.
    pose proof (CreateKey_checked name ct fresh w Hlen Hct Hname) as Heq.
    fold sk in Heq. split; [exact Heq|].
    intros id Hid Hf Hsize sm'. rewrite Heq. unfold mbind at 1.
    pose proof (saveKey_no_fault sk id w Hid Hf Hsize) as Hsave.
    cbv zeta in Hsave. cbn [Name sk] in Hsave. fold sk in Hsave.
    rewrite Hsave. fold sm'. unfold ret.
    split; [reflexivity|]. split; [reflexivity|]. split; [reflexivity|].
    unfold KeyByName, KeyByID. cbn [sm' set_fileLen set_maps idsByName keysByID].
    now rewrite !lookup_insert_eq.
Qed.

(** A key that collides with nothing is added when the disk works:
    [AddKey] checks nothing else. *)
Lemma AddKey_fresh (sk : Skykey) (id : SkykeyID) (w : world) :
  ID sk = Ok id ->
  keysByID (w_sm w) !! id = None ->
  idsByName (w_sm w) !! Name sk = None ->
  AddKey sk w = saveKey sk w.
Proof.
  intros Hid Hk Hn. unfold AddKey, mbind, get_sm, lift.
  now rewrite Hid, Hk, Hn.
Qed.

Lemma lookups_after_set_maps (sk : Skykey) (id : SkykeyID) (sm : SkykeyManager) :
  KeyByName (set_maps (Name sk) id sk sm) (Name sk) = Ok sk
  /\ KeyByID (set_maps (Name sk) id sk sm) id = Ok sk
  /\ IDByName (set_maps (Name sk) id sk sm) (Name sk) = Ok id.
Proof.
  unfold KeyByName, KeyByID, IDByName, set_maps. cbn [idsByName keysByID].
  now rewrite !lookup_insert_eq.
Qed.

End Mutations.

(** ** The manager: loading *)

Section Loading.

Context `{Cr : crypto.Package} `{Bu : build.Package} `{En : encoding.Package}.

Lemma consistent_set_maps (name : string) (id : SkykeyID) (sk : Skykey)
  (sm : SkykeyManager) :
  consistent sm -> consistent (set_maps name id sk sm).
Proof.
  unfold consistent, set_maps. cbn [idsByName keysByID].
  intros H name' id' Hl.
  destruct (decide (id' = id)) as [->|Hne]; [rewrite lookup_insert_eq; eauto|].
  rewrite lookup_insert_ne by congruence.
  destruct (decide (name = name')) as [->|Hn].
  - rewrite lookup_insert_eq in Hl. congruence.
  - rewrite lookup_insert_ne in Hl by exact Hn. eauto.
Qed.

Lemma ReadFull_app' (k : nat) (a rest : list byte) (lim : N) :
  length a = k ->
  encoding.ReadFull k (encoding.mkDecoder (a ++ rest) lim None)
  = (a, encoding.mkDecoder rest lim None).
Proof. intros <-. apply ReadFull_app. Qed.

(** The header buffer of a file that has a whole header. *)
Lemma header_buffer (m v l rest : list byte) :
  length m = types.SpecifierLen -> length v = types.SpecifierLen -> length l = 8 ->
  copy (replicate headerLen x00) (m ++ v ++ l ++ rest) = m ++ v ++ l ++ [].
Proof.
  intros Hm Hv Hl. unfold copy.
  rewrite length_replicate.
  rewrite drop_ge by (rewrite length_replicate, !length_app; unfold headerLen; lia).
  rewrite !app_assoc. rewrite take_app_length'.
  - now rewrite !app_nil_r.
  - rewrite !length_app. unfold headerLen. lia.
Qed.

(** [loadHeader] on a file that has a whole header, when the read does
    not fail: the magic is compared, the version is stored and checked,
    and the length is stored. *)
Lemma loadHeader_eq (w : world) (m v l rest : list byte) :
  w_file w = m ++ v ++ l ++ rest ->
  length m = types.SpecifierLen -> length v = types.SpecifierLen -> length l = 8 ->
  w_fault w <> Some StepRead ->
  loadHeader w =
    if decide (m <> SkykeyFileMagic) then (Err errExpectedMagic, w)
    else
      let w1 := mkWorld (set_version v (w_sm w)) (w_file w) (w_fault w) in
      if negb (build.IsVersion (stripNUL v)) then (Err errHeaderMissingVersion, w1)
      else if (build.VersionCmp skykeyVersionString (stripNUL v) <? 0)%Z
      then (Err errUnknownVersion, w1)
      else (Ok tt,
            mkWorld (set_fileLen (le_value l) (set_version v (w_sm w)))
              (w_file w) (w_fault w)).
Proof.
  intros Hfile Hm Hv Hl Hf.
  destruct w as [sm file f]. cbn [w_sm w_file w_fault] in *. subst file.
  unfold loadHeader, mbind, io, get_file. cbn [w_sm w_file w_fault].
  rewrite decide_False by exact Hf.
  cbv beta iota. cbn [w_sm w_file w_fault].
  rewrite header_buffer by assumption.
  unfold encoding.DecodeArray, encoding.NewDecoder.
  rewrite (ReadFull_app' _ m) by exact Hm.
  destruct (decide (m <> SkykeyFileMagic)); [reflexivity|].
  rewrite (ReadFull_app' _ v) by exact Hv.
  unfold when_ok, modify_sm, get_sm, throw, ret.
  cbn [encoding.dec_err w_sm version set_version].
  destruct (negb (build.IsVersion (stripNUL v))); [reflexivity|].
  destruct (build.VersionCmp skykeyVersionString (stripNUL v) <? 0)%Z; [reflexivity|].
  unfold encoding.DecodeUint64. rewrite (ReadFull_app' _ l) by exact Hl.
  reflexivity.
Qed.

(** A specifier made from a text without NUL that fits gives the text
    back once the padding is stripped. *)
Lemma stripNUL_NewSpecifier (s : string) :
  String.length s <= types.SpecifierLen ->
  Forall (fun b => b <> x00) (list_byte_of_string s) ->
  stripNUL (types.NewSpecifier s) = s.
Proof.
  intros Hlen Hnz. unfold stripNUL, types.NewSpecifier, copy.
  rewrite length_replicate, take_ge
    by (rewrite length_list_byte_of_string; exact Hlen).
  rewrite drop_replicate, List.filter_app.
  assert (H1 : forall l : list byte, Forall (fun b => b <> x00) l ->
             List.filter (fun b => negb (bool_decide (b = x00))) l = l).
  { induction 1 as [|b l Hb _ IH]; [reflexivity|].
    cbn [List.filter]. now rewrite bool_decide_eq_false_2, IH by exact Hb. }
  assert (H2 : forall n, List.filter (fun b => negb (bool_decide (b = x00)))
                           (replicate n x00) = []).
  { induction n as [|n IH]; [reflexivity|]. cbn. exact IH. }
  rewrite H1, H2, app_nil_r by exact Hnz.
  apply string_of_list_byte_of_string.
Qed.

Lemma unmarshalSia_consumes (r rest : list byte) (k : Skykey) :
  unmarshalSia r = Ok (k, rest) -> length rest + 16 <= length r.
Proof.
  intros H. rewrite (marshalSia_unmarshalSia _ _ _ H).
  unfold marshalSia, encoding.EncodePrefixed.
  rewrite !length_app, !length_le_bytes. lia.
Qed.

Lemma unmarshalSia_Err (r : list byte) (e : error) :
  unmarshalSia r = Err e -> e = errDecode.
Proof.
  unfold unmarshalSia, encoding.NewDecoder, encoding.DecodeArray.
  assert (HR : forall k d, encoding.dec_err d = None \/ encoding.dec_err d = Some errDecode ->
            encoding.dec_err (snd (encoding.ReadFull k d)) = None
            \/ encoding.dec_err (snd (encoding.ReadFull k d)) = Some errDecode).
  { intros k d Hd. unfold encoding.ReadFull.
    destruct (encoding.dec_err d) eqn:E; [cbn; now rewrite E|].
    destruct (decide _); cbn; auto. }
  assert (HP : forall d, encoding.dec_err d = None \/ encoding.dec_err d = Some errDecode ->
            encoding.dec_err (snd (encoding.DecodePrefixed d)) = None
            \/ encoding.dec_err (snd (encoding.DecodePrefixed d)) = Some errDecode).
  { intros d Hd. unfold encoding.DecodePrefixed.
    pose proof (HR 8 d Hd) as H8.
    destruct (encoding.ReadFull 8 d) as [p d1]. cbn [snd] in H8.
    destruct (encoding.dec_err d1) eqn:E1; [cbn; now rewrite E1|].
    destruct (_ <=? _)%N; [apply HR; auto | cbn; auto]. }
  pose proof (HP (encoding.mkDecoder r encoding.DefaultAllocLimit None)
                (or_introl eq_refl)) as H1.
  destruct (encoding.DecodePrefixed _) as [name d1]. cbn [snd] in H1.
  pose proof (HR crypto.CipherTypeLen d1 H1) as H2.
  destruct (encoding.ReadFull _ d1) as [ct d2]. cbn [snd] in H2.
  pose proof (HP d2 H2) as H3.
  destruct (encoding.DecodePrefixed d2) as [entropy d3]. cbn [snd] in H3.
  destruct H3 as [-> | ->]; [discriminate|]. now intros [= <-].
Qed.

Lemma unmarshalSia_not_Panic (r : list byte) : unmarshalSia r <> Panic.
Proof.
  unfold unmarshalSia.
  destruct (encoding.DecodePrefixed _) as [name d1].
  destruct (encoding.DecodeArray _ d1) as [ct d2].
  destruct (encoding.DecodePrefixed d2) as [entropy d3].
  destruct (encoding.dec_err d3); discriminate.
Qed.

Lemma loadKeys_stop (fuel off : nat) (w : world) :
  (int_of_uint64 (fileLen (w_sm w)) <= Z.of_nat off)%Z ->
  loadKeys fuel off w = (Ok (Some off), w).
Proof.
  intros H. destruct fuel; cbn [loadKeys]; unfold mbind, get_sm, ret;
    apply Z.ltb_ge in H; now rewrite H.
Qed.

Lemma loadKeys_step (fuel off : nat) (w : world) :
  (Z.of_nat off < int_of_uint64 (fileLen (w_sm w)))%Z ->
  loadKeys (S fuel) off w =
  (p <-- lift (unmarshalSia (drop off (w_file w))) ;;;
   id <-- lift (ID (fst p)) ;;;
   modify_sm (set_maps (Name (fst p)) id (fst p)) ;;;
   io StepOffset ;;;
   loadKeys fuel (length (w_file w) - length (snd p))) w.
Proof.
  intros H. cbn [loadKeys]. unfold mbind at 1, get_sm.
  apply Z.ltb_lt in H. rewrite H. reflexivity.
Qed.

(** What the loop keeps: the file, the environment, the length and the
    version read from the header, and the agreement of the two maps.  Its
    errors are those of the decoder and of the offset query. *)
Lemma loadKeys_post (fuel : nat) : forall (off : nat) (w : world),
  post (loadKeys fuel off) w (fun r w' =>
    w_file w' = w_file w /\ w_fault w' = w_fault w
    /\ fileLen (w_sm w') = fileLen (w_sm w)
    /\ version (w_sm w') = version (w_sm w)
    /\ (consistent (w_sm w) -> consistent (w_sm w'))
    /\ (forall e, r = Err e -> e = errDecode \/ e = errIO StepOffset)).
Proof.
  induction fuel as [|fuel IH]; intros off w.
  - cbn [loadKeys]. wp. destruct (_ <? _)%Z; wp; repeat split; auto; discriminate.
  - cbn [loadKeys]. wp. destruct (_ <? _)%Z; [|wp; repeat split; auto; discriminate].
    wp. destruct (unmarshalSia (drop off (w_file w))) as [[sk rest]| e |] eqn:Hdec.
    + cbn [fst snd]. wp.
      destruct (ID_cases sk) as [[id Hid] | Hid]; rewrite Hid;
        [|repeat split; auto; discriminate].
      wp. wp_io Hf.
      { cbn. repeat split; auto using consistent_set_maps.
        intros e He. injection He as <-. auto. }
      eapply post_conseq; [apply IH|]. cbn.
      intros r w' (-> & -> & -> & -> & Hc & He). repeat split; auto.
      intros Hcons. apply Hc. now apply consistent_set_maps.
    + repeat split; auto. intros e' [= <-]. left. now apply unmarshalSia_Err in Hdec.
    + repeat split; auto. discriminate.
Qed.

End Loading.

Section LoadingRecords.

Context `{Cr : crypto.Package} `{Bu : build.Package} `{En : encoding.Package}.

Lemma records_bounds (file : list byte) (limit : Z) (off off' : nat)
  (ks : list Skykey) :
  records file limit off ks off' -> off <= length file ->
  off + length ks <= off' /\ off' <= length file.
Proof.
  induction 1 as [off|off sk rest ks off' Hlt Hdec Hrec IH]; intros Hoff.
  - cbn. lia.
  - apply unmarshalSia_consumes in Hdec. rewrite length_drop in Hdec.
    cbn [length]. destruct IH; lia.
Qed.

(** While the records decode and their identifiers are computed, the
    loop goes from one to the next.  [P] is any property of the outcome
    that a panic has, unless no identifier panics. *)
Lemma loadKeys_records (file : list byte) (limit : Z)
  (P : result (option nat) -> Prop) (off off' : nat) (ks : list Skykey) :
  records file limit off ks off' ->
  P Panic \/ Forall (fun sk => ID sk <> Panic) ks ->
  forall (fuel : nat) (w : world),
    w_file w = file -> w_fault w = None ->
    int_of_uint64 (fileLen (w_sm w)) = limit ->
    length ks <= fuel ->
    (forall w', w_file w' = file -> w_fault w' = None ->
       int_of_uint64 (fileLen (w_sm w')) = limit ->
       P (fst (loadKeys (fuel - length ks) off' w'))) ->
    P (fst (loadKeys fuel off w)).
Proof.
  induction 1 as [off|off sk rest ks off' Hlt Hdec Hrec IH];
    intros HP fuel w Hfile Hfault Hlim Hfuel Hk.
  - cbn [length] in Hk. rewrite Nat.sub_0_r in Hk. now apply Hk.
  - cbn [length] in *. destruct fuel as [|fuel]; [lia|].
    rewrite loadKeys_step by (rewrite Hlim; exact Hlt).
    unfold mbind, lift. rewrite Hfile, Hdec. cbn [fst snd].
    destruct (ID_cases sk) as [[id Hid] | Hid]; rewrite Hid.
    + unfold modify_sm, io. cbn [w_sm w_file w_fault]. rewrite Hfault.
      rewrite decide_False by discriminate.
      apply IH; cbn [w_sm w_file w_fault set_maps fileLen]; auto; [|lia].
      destruct HP as [HP | HP]; [now left | right]. now inversion HP.
    + destruct HP as [HP | HP]; [exact HP|]. inversion HP; contradiction.
Qed.

Lemma io_no_fault (s : io_step) (w : world) :
  w_fault w = None -> io s w = (Ok tt, w).
Proof. intros H. unfold io. rewrite H. now rewrite decide_False by discriminate. Qed.

(** [loadHeader] changes the version and the length only. *)
Lemma loadHeader_post (w : world) :
  post loadHeader w (fun r w' =>
    w_file w' = w_file w /\ w_fault w' = w_fault w
    /\ idsByName (w_sm w') = idsByName (w_sm w)
    /\ keysByID (w_sm w') = keysByID (w_sm w)).
Proof.
  unfold loadHeader. wp_io Hf; [auto|].
  destruct (encoding.DecodeArray _ _) as [magic d1].
  destruct (decide _); [wp; auto|].
  destruct (encoding.DecodeArray _ d1) as [v d2]. wp.
  unfold when_ok.
  destruct (encoding.dec_err d2); wp; [auto|].
  destruct (negb _); [wp; auto|].
  destruct (_ <? _)%Z; [wp; auto|].
  destruct (encoding.DecodeUint64 d2) as [len d3]. wp.
  destruct (encoding.dec_err d3); wp; auto.
Qed.

Lemma load_eq (w : world) (w1 : world) :
  w_fault w = None -> headerLen <= length (w_file w) ->
  loadHeader w = (Ok tt, w1) ->
  load w =
    match loadKeys (S (length (w_file w))) headerLen w1 with
    | (Ok (Some n), w2) =>
        if decide (Z.of_nat n <> int_of_uint64 (fileLen (w_sm w2)))
        then (Err errExpectedEntireFile, w2) else (Ok tt, w2)
    | (Ok None, w2) => (Err errExpectedEntireFile, w2)
    | (Err e, w2) => (Err e, w2)
    | (Panic, w2) => (Panic, w2)
    end.
Proof.
  intros Hf Hlen Hh.
  pose proof (loadKeys_post (S (length (w_file w))) headerLen w1) as Hpost.
  unfold post in Hpost.
  assert (Hf1 : w_fault w1 = None /\ w_file w1 = w_file w).
  { pose proof (loadHeader_post w) as Hp. unfold post in Hp.
    rewrite Hh in Hp. cbn [snd] in Hp. destruct Hp as (-> & -> & _). auto. }
  destruct Hf1 as [Hf1 Hfile1].
  unfold load. unfold mbind at 1. rewrite io_no_fault by exact Hf.
  unfold mbind at 1. rewrite io_no_fault by exact Hf.
  unfold mbind at 1, get_file. cbv beta iota.
  rewrite decide_False by lia.
  unfold mbind at 1. rewrite Hh.
  unfold mbind at 1. rewrite io_no_fault by exact Hf1.
  unfold mbind at 1.
  destruct (loadKeys (S (length (w_file w))) headerLen w1) as [[[n|]|e|] w2];
    try reflexivity.
  unfold mbind, get_sm, throw, ret. now destruct (decide _).
Qed.

End LoadingRecords.

Section LoadingClaims.

Context `{Cr : crypto.Package} `{Bu : build.Package} `{En : encoding.Package}.

Lemma load_header_err (w w1 : world) (e : error) :
  w_fault w = None -> headerLen <= length (w_file w) ->
  loadHeader w = (Err e, w1) -> load w = (Err e, w1).
Proof.
  intros Hf Hlen Hh.
  unfold load. unfold mbind at 1. rewrite io_no_fault by exact Hf.
  unfold mbind at 1. rewrite io_no_fault by exact Hf.
  unfold mbind at 1, get_file. cbv beta iota.
  rewrite decide_False by lia.
  unfold mbind at 1. now rewrite Hh.
Qed.

Lemma NewSkykeyManager_eq (file : list byte) :
  fst (NewSkykeyManager file None) =
  match load (mkWorld emptyManager file None) with
  | (Ok _, w') => Ok (w_sm w')
  | (Err e, _) => Err e
  | (Panic, _) => Panic
  end.
Proof.
  unfold NewSkykeyManager. rewrite io_no_fault by reflexivity.
  now destruct (load _) as [[[]|e|] w'].
Qed.

(** The outcome of [load] when the loop, run from the state the header
    leaves, ends with an error or at an offset other than [fileLen]. *)
Lemma load_loop_outcome (w w1 : world) (P : result unit -> Prop) :
  w_fault w = None -> headerLen <= length (w_file w) ->
  loadHeader w = (Ok tt, w1) ->
  (forall e, P (Err e)) ->
  match fst (loadKeys (S (length (w_file w))) headerLen w1) with
  | Ok (Some n) => Z.of_nat n <> int_of_uint64 (fileLen (w_sm w1))
  | Ok None => True
  | Err _ => True
  | Panic => P Panic
  end ->
  P (fst (load w)).
Proof.
  intros Hf Hlen Hh HE Hloop.
  rewrite (load_eq w w1 Hf Hlen Hh).
  pose proof (loadKeys_post (S (length (w_file w))) headerLen w1) as Hp.
  unfold post in Hp.
  destruct (loadKeys (S (length (w_file w))) headerLen w1) as [[[n|]|e|] w2];
    cbn [fst snd] in *; auto.
  destruct Hp as (_ & _ & -> & _).
  rewrite decide_True by exact Hloop. apply HE.
Qed.

(** A file that is cut short.  [load] decodes the records one after the
    other from [headerLen] while the offset is below [fileLen].  When,
    after the records [ks], a record does not decode although [fileLen] is
    not reached, or the offset has gone past [fileLen], [load] does not
    succeed and [NewSkykeyManager] gives no manager; both return the
    error when the identifiers of the records read can be computed, and
    panic when one cannot. *)
Theorem load_rejects (file : list byte) (w1 : world) (ks : list Skykey)
  (off : nat) :
  headerLen <= length file ->
  loadHeader (mkWorld emptyManager file None) = (Ok tt, w1) ->
  records file (int_of_uint64 (fileLen (w_sm w1))) headerLen ks off ->
  ((Z.of_nat off < int_of_uint64 (fileLen (w_sm w1)))%Z
   /\ (exists e, unmarshalSia (drop off file) = Err e))
  \/ (int_of_uint64 (fileLen (w_sm w1)) < Z.of_nat off)%Z ->
  is_ok (fst (load (mkWorld emptyManager file None))) = false
  /\ is_ok (fst (NewSkykeyManager file None)) = false
  /\ (Forall (fun sk => ID sk <> Panic) ks ->
      exists e, fst (load (mkWorld emptyManager file None)) = Err e
                /\ fst (NewSkykeyManager file None) = Err e).
Proof.
  intros Hlen Hh Hrec Hbad.
  set (w0 := mkWorld emptyManager file None) in *.
  set (limit := int_of_uint64 (fileLen (w_sm w1))) in *.
  pose proof (loadHeader_post w0) as Hp. unfold post in Hp.
  rewrite Hh in Hp. cbn [snd w_file w_fault w0] in Hp.
  destruct Hp as (Hfile1 & Hfault1 & _).
  destruct (records_bounds _ _ _ _ _ Hrec Hlen) as [Hks Hoff].
  assert (Hloop : forall (Q : result (option nat) -> Prop),
            Q Panic \/ Forall (fun sk => ID sk <> Panic) ks ->
            (forall e, Q (Err e)) ->
            (forall n, Z.of_nat n <> limit -> Q (Ok (Some n))) ->
            Q (fst (loadKeys (S (length file)) headerLen w1))).
  { intros Q HQ HErr HOk.
    apply (loadKeys_records file limit Q headerLen off ks Hrec HQ); auto; [lia|].
    intros w' Hfile' Hfault' Hlim'.
    destruct Hbad as [[Hlt [e Hdec]] | Hgt].
    - replace (S (length file) - length ks) with (S (length file - length ks)) by lia.
      rewrite loadKeys_step by (rewrite Hlim'; exact Hlt).
      unfold mbind, lift. rewrite Hfile', Hdec. apply HErr.
    - rewrite loadKeys_stop by (rewrite Hlim'; lia). apply HOk. lia. }
  assert (Hload : forall (P : result unit -> Prop),
            P Panic \/ Forall (fun sk => ID sk <> Panic) ks ->
            (forall e, P (Err e)) -> P (fst (load w0))).
  { intros P HP HE.
    apply (load_loop_outcome w0 w1 P); auto.
    apply (Hloop (fun r => match r with
                           | Ok (Some n) => Z.of_nat n <> limit
                           | Ok None => True
                           | Err _ => True
                           | Panic => P Panic
                           end)); auto. }
  rewrite NewSkykeyManager_eq. fold w0.
  split; [|split].
  - apply (Hload (fun r => is_ok r = false)); auto.
  - pose proof (Hload (fun r => is_ok r = false) (or_introl eq_refl)
                  (fun _ => eq_refl)) as H.
    destruct (load w0) as [[[]|e|] w']; cbn in *; congruence.
  - intros HID.
    pose proof (Hload (fun r => exists e, r = Err e) (or_intror HID)
                  (fun e => ex_intro _ e eq_refl)) as [e He].
    exists e. split; [exact He|].
    destruct (load w0) as [r w']. cbn [fst] in He. now subst r.
Qed.

(** C5.  On a file with the magic and a whole header, [load] looks at the
    version with its NUL bytes removed, which for a specifier made from a
    text is the text.  A version that is not valid is refused; a valid one
    is refused as unknown exactly when [VersionCmp] puts the version of the
    code strictly before it; a valid one that is equal or older passes the
    header, which records the version and the length. *)
Theorem load_version (sm : SkykeyManager) (v l rest : list byte) :
  length v = types.SpecifierLen -> length l = 8 ->
  let w := mkWorld sm (SkykeyFileMagic ++ v ++ l ++ rest) None in
  (forall s, String.length s <= types.SpecifierLen ->
     Forall (fun b => b <> x00) (list_byte_of_string s) ->
     v = types.NewSpecifier s -> stripNUL v = s)
  /\ (build.IsVersion (stripNUL v) = false ->
      fst (load w) = Err errHeaderMissingVersion)
  /\ (build.IsVersion (stripNUL v) = true ->
      (fst (load w) = Err errUnknownVersion
       <-> (build.VersionCmp skykeyVersionString (stripNUL v) < 0)%Z))
  /\ (build.IsVersion (stripNUL v) = true ->
      (0 <= build.VersionCmp skykeyVersionString (stripNUL v))%Z ->
      loadHeader w
      = (Ok tt, mkWorld (set_fileLen (le_value l) (set_version v sm))
                  (SkykeyFileMagic ++ v ++ l ++ rest) None)).
Proof.
  intros Hv Hl w.
  assert (Hm : length SkykeyFileMagic = types.SpecifierLen) by reflexivity.
  assert (Hlen : headerLen <= length (w_file w)).
  { cbn [w w_file]. rewrite !length_app, Hm, Hv, Hl. unfold headerLen. lia. }
  pose proof (loadHeader_eq w SkykeyFileMagic v l rest eq_refl Hm Hv Hl
                ltac:(discriminate)) as Hh.
  rewrite decide_False in Hh by (intros H; now apply H).
  cbv zeta in Hh. cbn [w w_sm w_file w_fault] in Hh. fold w in Hh.
  split; [|split; [|split]].
  - intros s Hs Hnz ->. now apply stripNUL_NewSpecifier.
  - intros Hval. rewrite Hval in Hh. cbn [negb] in Hh.
    now rewrite (load_header_err w _ _ eq_refl Hlen Hh).
  - intros Hval. rewrite Hval in Hh. cbn [negb] in Hh.
    destruct (Z.ltb_spec (build.VersionCmp skykeyVersionString (stripNUL v)) 0)
      as [Hlt | Hge].
    + rewrite (load_header_err w _ _ eq_refl Hlen Hh). tauto.
    + split; [|lia]. intros Hload. exfalso. revert Hload.
      rewrite (load_eq w _ eq_refl Hlen Hh).
      match goal with |- context [loadKeys ?f ?o ?w1] =>
        pose proof (loadKeys_post f o w1) as Hp; unfold post in Hp;
        destruct (loadKeys f o w1) as [[[n|]|e|] w2] end;
        cbn [fst snd]; try discriminate.
      * destruct (decide _); discriminate.
      * destruct Hp as (_ & _ & _ & _ & _ & He).
        destruct (He e eq_refl) as [-> | ->]; discriminate.
  - intros Hval Hge. rewrite Hval in Hh. cbn [negb] in Hh.
    apply Z.ltb_ge in Hge. now rewrite Hge in Hh.
Qed.

End LoadingClaims.

(** ** The manager: the two maps *)

Section Maps.

Context `{Cr : crypto.Package} `{Bu : build.Package} `{En : encoding.Package}.

Lemma consistent_maps (sm sm' : SkykeyManager) :
  idsByName sm' = idsByName sm -> keysByID sm' = keysByID sm ->
  consistent sm -> consistent sm'.
Proof. unfold consistent. intros -> ->. auto. Qed.

Lemma consistent_empty : consistent emptyManager.
Proof. intros name id H. cbn in H. now rewrite lookup_empty in H. Qed.

Lemma saveKey_consistent (sk : Skykey) (w : world) :
  consistent (w_sm w) ->
  post (saveKey sk) w (fun _ w' => consistent (w_sm w')).
Proof.
  intros Hc. destruct (ID_cases sk) as [[id Hid] | Hid].
  - eapply post_conseq; [apply (saveKey_post sk id w Hid)|].
    cbn. intros r w' (Hn & Hk & _).
    apply (consistent_maps (set_maps (Name sk) id sk (w_sm w))); auto.
    now apply consistent_set_maps.
  - unfold post. now rewrite saveKey_Panic.
Qed.

Lemma AddKey_consistent (sk : Skykey) (w : world) :
  consistent (w_sm w) -> consistent (w_sm (snd (AddKey sk w))).
Proof.
  intros Hc. change (post (AddKey sk) w (fun _ w' => consistent (w_sm w'))).
  unfold AddKey. wp. destruct (ID sk) as [id| |]; cbv beta iota; auto.
  destruct (keysByID (w_sm w) !! id); [wp; auto|].
  destruct (idsByName (w_sm w) !! Name sk); [wp; auto|].
  now apply saveKey_consistent.
Qed.

Lemma CreateKey_consistent (name : string) (ct : crypto.CipherType)
  (fresh : list byte) (w : world) :
  consistent (w_sm w) -> consistent (w_sm (snd (CreateKey name ct fresh w))).
Proof.
  intros Hc.
  change (post (CreateKey name ct fresh) w (fun _ w' => consistent (w_sm w'))).
  unfold CreateKey. destruct (decide _); [wp; auto|].
  destruct (negb _); [wp; auto|]. wp.
  destruct (idsByName (w_sm w) !! name); [wp; auto|]. wp.
  eapply post_conseq; [now apply saveKey_consistent|].
  intros [[]| |] w' Hc'; wp; auto.
Qed.

Lemma load_consistent (w : world) :
  consistent (w_sm w) ->
  post load w (fun _ w' => consistent (w_sm w')).
Proof.
  intros Hc. unfold load. wp_io H1; [auto|]. wp_io H2; [auto|].
  destruct (decide _).
  - wp. eapply post_conseq; [apply saveHeader_post|].
    cbn. intros r w' (-> & _). exact Hc.
  - wp. eapply post_conseq; [apply loadHeader_post|].
    intros r w1 (Hfile & Hfault & Hn & Hk).
    assert (Hc1 : consistent (w_sm w1)) by (now apply (consistent_maps (w_sm w))).
    destruct r as [[]| |]; auto.
    wp_io H3; [auto|].
    eapply post_conseq; [apply loadKeys_post|].
    intros r w2 (_ & _ & _ & _ & Hc2 & _).
    destruct r as [[k|]| |]; wp; auto.
    destruct (decide _); wp; auto.
Qed.

Lemma NewSkykeyManager_consistent (file file' : list byte)
  (fault : option io_step) (sm : SkykeyManager) :
  NewSkykeyManager file fault = (Ok sm, file') -> consistent sm.
Proof.
  unfold NewSkykeyManager, io. cbn [w_fault].
  destruct (decide (fault = Some StepMkdir)); [discriminate|].
  pose proof (load_consistent (mkWorld emptyManager file fault) consistent_empty) as H.
  unfold post in H.
  destruct (load _) as [[[]| |] w']; try discriminate.
  now intros [= <- _].
Qed.

(** C9.  In every state the manager goes through, each identifier in the
    range of [idsByName] is a key of [keysByID], so [KeyByName] never
    returns [errNoSkykeysWithThatID]. *)
Theorem maps_consistent (w : world) :
  reachable w ->
  consistent (w_sm w)
  /\ forall name, KeyByName (w_sm w) name <> Err errNoSkykeysWithThatID.
Proof.
  intros Hr.
  assert (Hc : consistent (w_sm w)).
  { induction Hr as [file fault sm file' Hnew | w name ct fresh _ IH
                    | w sk _ IH | w file fault _ IH].
    - cbn. eapply NewSkykeyManager_consistent, Hnew.
    - now apply CreateKey_consistent.
    - now apply AddKey_consistent.
    - exact IH. }
  split; [exact Hc|]. intros name. unfold KeyByName.
  destruct (idsByName (w_sm w) !! name) as [id|] eqn:Hn; [|discriminate].
  destruct (Hc name id Hn) as [k ->]. discriminate.
Qed.

Lemma NewSkykeyManager_fresh :
  NewSkykeyManager [] None = (Ok freshManager, headerBytes freshManager).
Proof. reflexivity. Qed.

Lemma reachable_fresh : reachable freshWorld.
Proof. exact (reach_new [] None _ _ NewSkykeyManager_fresh). Qed.

(** C10.  [AddKey] does not look at the length of the name: on a new
    manager it adds a key of the supported type whose name has 129 bytes,
    and the key is found under that name afterwards. *)
Theorem AddKey_long_name :
  exists (sk : Skykey) (w : world),
    reachable w
    /\ MaxKeyNameLen < String.length (Name sk)
    /\ SupportsCipherType (CipherType sk) = true
    /\ idsByName (w_sm w) !! Name sk = None
    /\ (forall id, ID sk = Ok id -> keysByID (w_sm w) !! id = None)
    /\ fst (AddKey sk w) = Ok tt
    /\ KeyByName (w_sm (snd (AddKey sk w))) (Name sk) = Ok sk
    /\ fst (CreateKey (Name sk) (CipherType sk) (Entropy sk) w)
       = Err errSkykeyNameToolong.
Proof.
  set (sk := mkSkykey longName crypto.TypeXChaCha20
               (replicate (chacha.KeySize + chacha.XNonceSize) x00)).
  exists sk, freshWorld.
  assert (Hid : exists id, ID sk = Ok id).
  { destruct (ID_cases sk) as [H | H]; [exact H|].
    unfold ID, sk in H. cbn [CipherType Entropy] in H.
    rewrite decide_True in H by reflexivity. discriminate H. }
  destruct Hid as [id Hid].
  assert (Hadd : AddKey sk freshWorld = saveKey sk freshWorld)
    by (apply (AddKey_fresh sk id); [exact Hid | reflexivity | reflexivity]).
  pose proof (saveKey_no_fault sk id freshWorld Hid eq_refl eq_refl) as Hsave.
  cbv zeta in Hsave.
  split; [exact reachable_fresh|].
  split; [apply Nat.ltb_lt; vm_compute; reflexivity|].
  split; [unfold SupportsCipherType; now rewrite bool_decide_eq_true_2|].
  split; [reflexivity|]. split; [reflexivity|].
  rewrite Hadd, Hsave. cbn [fst snd w_sm].
  split; [reflexivity|]. split.
  - unfold KeyByName, set_fileLen, set_maps. cbn [idsByName keysByID].
    now rewrite !lookup_insert_eq.
  - unfold CreateKey.
    now rewrite decide_True by (apply Nat.ltb_lt; vm_compute; reflexivity).
Qed.

End Maps.

(** ** Concrete runs

    The statements that follow are about the sample environment. *)

Section Runs.

#[local] Existing Instance Sample.Cr.
#[local] Existing Instance Sample.Bu.
#[local] Existing Instance Sample.En.

Let x01 : byte := Corelib.Init.Byte.x01.
Let xff : byte := Corelib.Init.Byte.xff.

(** C1 on the code.  The persist file cannot be opened: [AddKey] and
    [CreateKey] return the error of the disk, yet the key that was not
    saved is found by its name afterwards, the file being what it was, and
    adding it again is refused as a duplicate. *)
Theorem failed_save_keeps_key :
  let sk := Sample.key "alpha" x01 x00 in
  let w := mkWorld freshManager (headerBytes freshManager) (Some StepOpen) in
  KeyByName (w_sm w) "alpha" = Err errNoSkykeysWithThatName
  /\ fst (AddKey sk w) = Err (errIO StepOpen)
  /\ KeyByName (w_sm (snd (AddKey sk w))) "alpha" = Ok sk
  /\ w_file (snd (AddKey sk w)) = w_file w
  /\ fst (AddKey sk (snd (AddKey sk w))) = Err ErrSkykeyWithIDAlreadyExists
  /\ fst (CreateKey "alpha" Sample.TypeXChaCha20 (Entropy sk) w)
     = Err (errIO StepOpen)
  /\ KeyByName (w_sm (snd (CreateKey "alpha" Sample.TypeXChaCha20 (Entropy sk) w)))
       "alpha" = Ok sk.
Proof. vm_compute. repeat split; reflexivity. Qed.

(** C2 on the code.  [AddKey] takes a key whose cipher type
    [SupportsCipherType] refuses: it returns no error and the key is
    stored, while [CreateKey] refuses the same type. *)
Theorem AddKey_takes_unsupported_type :
  let sk := mkSkykey "imported" Sample.TypePlain (replicate 56 x01) in
  SupportsCipherType (CipherType sk) = false
  /\ fst (AddKey sk freshWorld) = Ok tt
  /\ KeyByName (w_sm (snd (AddKey sk freshWorld))) "imported" = Ok sk
  /\ fst (CreateKey "imported" Sample.TypePlain (replicate 56 x01) freshWorld)
     = Err errUnsupportedSkykeyCipherType.
Proof. vm_compute. repeat split; reflexivity. Qed.

(** C3 as stated does not hold: a key of another cipher type whose
    entropy [NewSiaKey] accepts has a subkey with a different identifier,
    because [ID] hashes the whole entropy of such a key. *)
Lemma ID_SubkeyWithNonce_other_type :
  ~ (forall (Cr : crypto.Package) (m sub : Skykey) (n : list byte),
       length n = chacha.XNonceSize ->
       @SubkeyWithNonce Cr m n = Ok sub -> @ID Cr sub = @ID Cr m).
Proof.
  intros H.
  specialize (H Sample.Cr
    (mkSkykey "master" Sample.TypePlain (replicate 56 x01))
    (mkSkykey "master" Sample.TypePlain (replicate 32 x01 ++ replicate 24 xff))
    (replicate 24 xff) eq_refl eq_refl).
  vm_compute in H. discriminate H.
Qed.

Lemma ID_SubkeyWithNonce_witness :
  exists id,
    ID (Sample.key "master" x01 x00) = Ok id
    /\ ID (Sample.key "master" x01 xff) = Ok id
    /\ length id = SkykeyIDLen.
Proof.
  apply (ID_SubkeyWithNonce (Sample.key "master" x01 x00)
           (Sample.key "master" x01 xff) (replicate 24 xff));
    reflexivity.
Defined.

Lemma codec_roundtrip_witness :
  FromString (ToString (Sample.key "alpha" x01 x00)) = Ok (Sample.key "alpha" x01 x00).
Proof.
  apply (codec_roundtrip (Sample.key "alpha" x01 x00)).
  unfold decodable. cbn. repeat split; lia.
Defined.

Lemma AddKey_collisions_witness :
  let w := snd (AddKey (Sample.key "alpha" x01 x00) freshWorld) in
  AddKey (Sample.key "beta" x01 xff) w = (Err ErrSkykeyWithIDAlreadyExists, w).
Proof.
  cbv zeta.
  refine (proj1 (AddKey_collisions (Sample.key "beta" x01 xff) _ _ _) _).
  - vm_compute. reflexivity.
  - vm_compute. eexists. reflexivity.
Defined.

(** The manager holds the key [alpha]; the entropy drawn for [beta] has
    the key bytes of [alpha], so that the two identifiers are the same. *)
Lemma CreateKey_errors_witness :
  let alpha := Sample.key "alpha" x01 x00 in
  let beta := Sample.key "beta" x01 xff in
  let w := snd (AddKey alpha freshWorld) in
  let r := CreateKey "beta" Sample.TypeXChaCha20 (Entropy beta) w in
  CreateKey longName Sample.TypeXChaCha20 [] w = (Err errSkykeyNameToolong, w)
  /\ CreateKey "beta" Sample.TypePlain [] w
     = (Err errUnsupportedSkykeyCipherType, w)
  /\ CreateKey "alpha" Sample.TypeXChaCha20 [] w
     = (Err ErrSkykeyWithNameAlreadyExists, w)
  /\ ID alpha = ID beta
  /\ KeyByID (w_sm w) (take SkykeyIDLen (replicate 32 x01)) = Ok alpha
  /\ fst r = Ok beta
  /\ KeyByID (w_sm (snd r)) (take SkykeyIDLen (replicate 32 x01)) = Ok beta
  /\ KeyByName (w_sm (snd r)) "beta" = Ok beta.
Proof.
  cbv zeta.
  set (alpha := Sample.key "alpha" x01 x00).
  set (beta := Sample.key "beta" x01 xff).
  set (w := snd (AddKey alpha freshWorld)).
  split; [|split; [|split; [|split; [|split]]]].
  - apply (CreateKey_errors longName Sample.TypeXChaCha20 [] w).
    vm_compute. lia.
  - apply (CreateKey_errors "beta" Sample.TypePlain [] w).
    + vm_compute. lia.
    + vm_compute. discriminate.
  - apply (CreateKey_errors "alpha" Sample.TypeXChaCha20 [] w).
    + vm_compute. lia.
    + reflexivity.
    + vm_compute. eexists. reflexivity.
  - vm_compute. reflexivity.
  - vm_compute. reflexivity.
  - destruct (CreateKey_errors "beta" Sample.TypeXChaCha20 (Entropy beta) w)
      as (_ & _ & _ & H & _).
    destruct H as [_ H]; [vm_compute; lia | reflexivity | vm_compute; reflexivity |].
    destruct (H (take SkykeyIDLen (replicate 32 x01)))
      as (Hr & _ & _ & Hn & Hi);
      [vm_compute; reflexivity | reflexivity | vm_compute; reflexivity |].
    rewrite Hr. cbn [fst snd w_sm].
    split; [reflexivity|]. split; [exact Hi | exact Hn].
Defined.

(** A file with one record of 93 bytes whose header says that the file
    ends ten bytes into the record. *)
Let cutFile : list byte :=
  headerBytes (set_fileLen 50 freshManager) ++ marshalSia (Sample.key "alpha" x01 x00).

Lemma load_rejects_witness :
  exists e, fst (load (mkWorld emptyManager cutFile None)) = Err e
            /\ fst (NewSkykeyManager cutFile None) = Err e.
Proof.
  refine (proj2 (proj2 (load_rejects cutFile
            (snd (loadHeader (mkWorld emptyManager cutFile None)))
            [Sample.key "alpha" x01 x00] 133 _ _ _ _)) _).
  - vm_compute. lia.
  - vm_compute. reflexivity.
  - eapply records_cons.
    + vm_compute. reflexivity.
    + vm_compute. reflexivity.
    + vm_compute. apply records_nil.
  - right. vm_compute. reflexivity.
  - repeat constructor. vm_compute. discriminate.
Defined.

(** C4 on the code.  The header of the file gives a length of 50.  The
    one record starts at offset 40 and is a key of type [TypeXChaCha20]
    with a single byte of entropy; it decodes and ends at offset 78, so
    that decoding it moves the offset past the length.  [load] returns no
    error: it panics in [sk.ID()], which slices the entropy of the key
    before the offset is compared with the length, and [NewSkykeyManager]
    panics with it.  The same cut through a record whose entropy has 56
    bytes is refused with the error. *)
Theorem load_panics_mid_record :
  let sk := mkSkykey "alpha" Sample.TypeXChaCha20 [x01] in
  let file := headerBytes (set_fileLen 50 freshManager) ++ marshalSia sk in
  let w := mkWorld emptyManager file None in
  fst (loadHeader w) = Ok tt
  /\ int_of_uint64 (fileLen (w_sm (snd (loadHeader w)))) = 50%Z
  /\ records file 50 headerLen [sk] 78
  /\ length file = 78
  /\ ID sk = Panic
  /\ fst (load w) = Panic
  /\ fst (NewSkykeyManager file None) = Panic
  /\ fst (load (mkWorld emptyManager
                  (headerBytes (set_fileLen 50 freshManager)
                   ++ marshalSia (Sample.key "alpha" x01 x00)) None))
     = Err errExpectedEntireFile.
Proof.
  cbv zeta. repeat split; try (vm_compute; reflexivity).
  eapply records_cons.
  - vm_compute. reflexivity.
  - vm_compute. reflexivity.
  - vm_compute. apply records_nil.
Qed.

Lemma load_version_witness :
  fst (load (mkWorld emptyManager
               (SkykeyFileMagic ++ types.NewSpecifier "9.9.9"
                ++ le_bytes 8 40 ++ []) None))
  = Err errUnknownVersion.
Proof.
  destruct (load_version emptyManager (types.NewSpecifier "9.9.9")
              (le_bytes 8 40) [] eq_refl eq_refl) as (_ & _ & H & _).
  apply H.
  - vm_compute. reflexivity.
  - vm_compute. reflexivity.
Defined.

Lemma maps_consistent_witness :
  KeyByName (w_sm (snd (AddKey (Sample.key "alpha" x01 x00) freshWorld))) "alpha"
  <> Err errNoSkykeysWithThatID.
Proof.
  apply (maps_consistent (snd (AddKey (Sample.key "alpha" x01 x00) freshWorld))).
  apply reach_AddKey, reachable_fresh.
Defined.

End Runs.

(** * Further properties of the code *)

(** ** Identifiers and subkeys *)

Section MoreKeys.

Context `{Cr : crypto.Package} `{En : encoding.Package}.

(** X1.  The text form of an identifier is read back. *)
Theorem SkykeyID_roundtrip (id : SkykeyID) :
  length id = SkykeyIDLen ->
  SkykeyID_FromString (SkykeyID_ToString id) = Ok id.
Proof.
  intros Hlen. unfold SkykeyID_FromString, SkykeyID_ToString.
  rewrite DecodeString_EncodeToString.
  rewrite decide_False by (intros H; now apply H).
  f_equal. apply copy_same_length. now rewrite length_replicate.
Qed.

(** X2.  A text that decodes to another number of bytes than [SkykeyIDLen] is
    not an identifier. *)
Theorem SkykeyID_FromString_length (bs : list byte) :
  length bs <> SkykeyIDLen ->
  SkykeyID_FromString (base64.EncodeToString bs) = Err errInvalidIDLength.
Proof.
  intros Hlen. unfold SkykeyID_FromString.
  rewrite DecodeString_EncodeToString. now rewrite decide_True by exact Hlen.
Qed.

(** X4.  [ID] panics exactly on a key of type [TypeXChaCha20] with fewer than
    [KeySize] bytes of entropy; otherwise it gives [SkykeyIDLen] bytes. *)
Theorem ID_Panic_iff (sk : Skykey) :
  (ID sk = Panic <->
     CipherType sk = crypto.TypeXChaCha20 /\ length (Entropy sk) < chacha.KeySize)
  /\ (ID sk <> Panic -> exists id, ID sk = Ok id /\ length id = SkykeyIDLen).
Proof.
  split.
  - unfold ID, slice_to.
    destruct (decide (CipherType sk = crypto.TypeXChaCha20)) as [Hct|Hct].
    + destruct (decide (chacha.KeySize <= length (Entropy sk))); cbn.
      * split; [discriminate | lia].
      * split; [intros _; split; [assumption | lia] | reflexivity].
    + cbn. split; [discriminate | tauto].
  - intros H. destruct (ID_cases sk) as [[id Hid] | HP]; [|contradiction].
    exists id. split; [exact Hid | now apply length_ID in Hid].
Qed.

(** X5.  [ID] reads the cipher type and, for [TypeXChaCha20], the first
    [KeySize] bytes of the entropy, for the other types the whole
    entropy; the name and the nonce of a [TypeXChaCha20] key play no
    part. *)
Theorem ID_key_portion (a b : Skykey) :
  CipherType a = CipherType b ->
  (if decide (CipherType a = crypto.TypeXChaCha20)
   then take chacha.KeySize (Entropy a) = take chacha.KeySize (Entropy b)
   else Entropy a = Entropy b) ->
  ID a = ID b.
Proof.
  intros Hct He. unfold ID. rewrite <- Hct.
  destruct (decide (CipherType a = crypto.TypeXChaCha20)); [|now rewrite He].
  assert (Hs : slice_to chacha.KeySize (Entropy a)
               = slice_to chacha.KeySize (Entropy b)).
  { unfold slice_to. rewrite He.
    destruct (decide (chacha.KeySize <= length (Entropy a))) as [Ha|Ha],
             (decide (chacha.KeySize <= length (Entropy b))) as [Hb|Hb];
      try reflexivity; exfalso;
      apply (f_equal length) in He; rewrite !length_take in He; lia. }
  now rewrite Hs.
Qed.

Lemma SubkeyWithNonce_eq (sk : Skykey) (nonce : list byte) :
  length nonce = chacha.XNonceSize ->
  chacha.KeySize <= length (Entropy sk) ->
  SubkeyWithNonce sk nonce =
    if crypto.NewSiaKey (CipherType sk) (take chacha.KeySize (Entropy sk) ++ nonce)
    then Ok (mkSkykey (Name sk) (CipherType sk)
               (take chacha.KeySize (Entropy sk) ++ nonce))
    else Err errCreatingSubkey.
Proof.
  intros Hn He. unfold SubkeyWithNonce, slice_to.
  rewrite decide_False by (intros H; now apply H).
  rewrite decide_True by exact He. cbn [of_slice bind].
  set (key := take chacha.KeySize (Entropy sk)).
  assert (Hk : length key = chacha.KeySize)
    by (unfold key; rewrite length_take; lia).
  rewrite (copy_same_length _ key)
    by (rewrite length_take, length_replicate, Hk; lia).
  rewrite (take_app_length' key _ chacha.KeySize (eq_sym Hk)).
  rewrite (drop_app_length' key _ chacha.KeySize (eq_sym Hk)).
  rewrite (copy_same_length _ nonce)
    by (rewrite length_drop, length_replicate, Hn; lia).
  reflexivity.
Qed.

(** X6.  What [SubkeyWithNonce] returns, case by case: a nonce of the wrong
    size is an error whatever the key; with a nonce of the right size, an
    entropy shorter than the key size is a panic, the entropy being a
    slice whose capacity is its length (see [slice_to]: with more
    capacity Go's [sk.Entropy[:KeySize]] reads on into it), and otherwise
    [crypto.NewSiaKey] decides. *)
Theorem SubkeyWithNonce_cases (sk : Skykey) (nonce : list byte) :
  (length nonce <> chacha.XNonceSize ->
     SubkeyWithNonce sk nonce = Err errIncorrectNonceSize)
  /\ (length nonce = chacha.XNonceSize ->
      length (Entropy sk) < chacha.KeySize ->
      SubkeyWithNonce sk nonce = Panic)
  /\ (length nonce = chacha.XNonceSize ->
      chacha.KeySize <= length (Entropy sk) ->
      SubkeyWithNonce sk nonce =
        if crypto.NewSiaKey (CipherType sk)
             (take chacha.KeySize (Entropy sk) ++ nonce)
        then Ok (mkSkykey (Name sk) (CipherType sk)
                   (take chacha.KeySize (Entropy sk) ++ nonce))
        else Err errCreatingSubkey).
Proof.
  split; [|split].
  - intros Hn. unfold SubkeyWithNonce. now rewrite decide_True by exact Hn.
  - intros Hn He. unfold SubkeyWithNonce, slice_to.
    rewrite decide_False by (intros H; now apply H).
    now rewrite decide_False by lia.
  - apply SubkeyWithNonce_eq.
Qed.

(** The parts of a subkey. *)
Lemma subkey_parts (m sub : Skykey) (n : list byte) :
  SubkeyWithNonce m n = Ok sub ->
  Name sub = Name m /\ CipherType sub = CipherType m
  /\ take chacha.KeySize (Entropy sub) = take chacha.KeySize (Entropy m)
  /\ length (Entropy sub) = chacha.KeySize + chacha.XNonceSize
  /\ Nonce sub = Ok n
  /\ crypto.NewSiaKey (CipherType sub) (Entropy sub) = true.
Proof.
  intros Hsub.
  destruct (SubkeyWithNonce_Ok _ _ _ Hsub) as (Hn & key & Hkey & Heq).
  destruct (slice_to_Some _ _ _ Hkey) as [Hk1 Hk2].
  assert (He : chacha.KeySize <= length (Entropy m)).
  { revert Hkey. unfold slice_to. now destruct (decide _). }
  rewrite (SubkeyWithNonce_eq m n Hn He), <- Hk1 in Hsub.
  destruct (crypto.NewSiaKey (CipherType m) (key ++ n)) eqn:E; [|discriminate].
  subst sub. cbn [Name CipherType Entropy].
  split; [reflexivity|]. split; [reflexivity|].
  split; [now rewrite (take_app_length' key n chacha.KeySize (eq_sym Hk2))|].
  split; [rewrite length_app; lia|]. split; [|exact E].
  unfold Nonce, slice_from. cbn [Entropy].
  rewrite decide_True by (rewrite length_app; lia).
  rewrite (drop_app_length' key n chacha.KeySize (eq_sym Hk2)).
  cbn [of_slice bind]. f_equal. apply copy_same_length.
  now rewrite length_replicate.
Qed.

Lemma ID_XChaCha20_app (sk : Skykey) (key rest : list byte) :
  CipherType sk = crypto.TypeXChaCha20 ->
  Entropy sk = key ++ rest -> length key = chacha.KeySize ->
  ID sk = Ok (copy (replicate SkykeyIDLen x00)
                (take SkykeyIDLen
                   (crypto.HashAll [SkykeySpecifier; crypto.TypeXChaCha20; key]))).
Proof.
  intros Hct He Hk. unfold ID, slice_to. rewrite Hct, He.
  rewrite decide_True by reflexivity.
  rewrite decide_True by (rewrite length_app; lia).
  now rewrite (take_app_length' key rest chacha.KeySize (eq_sym Hk)).
Qed.

Lemma subkey_same_ID (m sub : Skykey) (n : list byte) :
  CipherType m = crypto.TypeXChaCha20 ->
  SubkeyWithNonce m n = Ok sub -> ID sub = ID m.
Proof.
  intros Hct Hsub.
  destruct (SubkeyWithNonce_Ok _ _ _ Hsub) as (_ & key & Hkey & ->).
  destruct (slice_to_Some _ _ _ Hkey) as [Hk1 Hk2].
  rewrite (ID_XChaCha20_app _ key n) by auto.
  rewrite (ID_XChaCha20_app m key (drop chacha.KeySize (Entropy m))); auto.
  now rewrite Hk1, take_drop.
Qed.

(** X7.  A subkey has the name, the cipher type and the key bytes of the key
    it comes from, [KeySize + XNonceSize] bytes of entropy, and the nonce
    it was made with. *)
Theorem SubkeyWithNonce_parts (m sub : Skykey) (n : list byte) :
  SubkeyWithNonce m n = Ok sub ->
  Name sub = Name m /\ CipherType sub = CipherType m
  /\ take chacha.KeySize (Entropy sub) = take chacha.KeySize (Entropy m)
  /\ length (Entropy sub) = chacha.KeySize + chacha.XNonceSize
  /\ Nonce sub = Ok n
  /\ (CipherType m = crypto.TypeXChaCha20 -> ID sub = ID m).
Proof.
  intros Hsub.
  destruct (subkey_parts _ _ _ Hsub) as (H1 & H2 & H3 & H4 & H5 & _).
  repeat split; auto. intros Hct. now apply (subkey_same_ID m sub n).
Qed.

(** X8.  Subkeys depend on the key bytes only: a subkey of a subkey is the
    subkey of the first key. *)
Theorem SubkeyWithNonce_twice (m s1 : Skykey) (n1 n2 : list byte) :
  SubkeyWithNonce m n1 = Ok s1 ->
  SubkeyWithNonce s1 n2 = SubkeyWithNonce m n2.
Proof.
  intros H1.
  destruct (SubkeyWithNonce_Ok _ _ _ H1) as (Hn1 & key & Hkey & ->).
  destruct (slice_to_Some _ _ _ Hkey) as [Hk1 Hk2].
  unfold SubkeyWithNonce. cbn [Name CipherType Entropy].
  destruct (decide (length n2 <> chacha.XNonceSize)); [reflexivity|].
  rewrite Hkey. unfold slice_to.
  rewrite decide_True by (rewrite length_app; lia).
  now rewrite (take_app_length' key n1 chacha.KeySize (eq_sym Hk2)).
Qed.

(** X9.  [DeriveSubkey] gives a key with the same name, cipher type and key
    bytes, and for [TypeXChaCha20] the same identifier. *)
Theorem DeriveSubkey_parts (m sub : Skykey) (derivation : list byte) :
  DeriveSubkey m derivation = Ok sub ->
  Name sub = Name m /\ CipherType sub = CipherType m
  /\ take chacha.KeySize (Entropy sub) = take chacha.KeySize (Entropy m)
  /\ length (Entropy sub) = chacha.KeySize + chacha.XNonceSize
  /\ (CipherType m = crypto.TypeXChaCha20 -> ID sub = ID m).
Proof.
  unfold DeriveSubkey. destruct (Nonce m) as [nonce| |]; try discriminate.
  cbn [bind]. destruct (slice_to _ _) as [dn|]; [|discriminate].
  cbn [of_slice bind]. intros Hsub.
  destruct (subkey_parts _ _ _ Hsub) as (H1 & H2 & H3 & H4 & _).
  repeat split; auto. intros Hct. now apply (subkey_same_ID m sub dn).
Qed.

(** X10.  [GenerateFileSpecificSubkey] always hands a nonce of the right size
    to [SubkeyWithNonce]; its subkey has the identifier of a
    [TypeXChaCha20] key. *)
Theorem GenerateFileSpecificSubkey_parts (m : Skykey) (random : list byte) :
  GenerateFileSpecificSubkey m random <> Err errIncorrectNonceSize
  /\ (forall sub, GenerateFileSpecificSubkey m random = Ok sub ->
      Name sub = Name m /\ CipherType sub = CipherType m
      /\ (length random = chacha.XNonceSize -> Nonce sub = Ok random)
      /\ (CipherType m = crypto.TypeXChaCha20 -> ID sub = ID m)).
Proof.
  unfold GenerateFileSpecificSubkey.
  set (nonce := copy (replicate chacha.XNonceSize x00) random).
  assert (Hn : length nonce = chacha.XNonceSize)
    by (unfold nonce; now rewrite length_copy, length_replicate).
  split.
  - unfold SubkeyWithNonce.
    rewrite decide_False by (intros H; now apply H).
    destruct (slice_to _ _); cbn [of_slice bind]; [|discriminate].
    destruct (crypto.NewSiaKey _ _); discriminate.
  - intros sub Hsub.
    destruct (subkey_parts _ _ _ Hsub) as (H1 & H2 & _ & _ & H5 & _).
    repeat split; auto.
    + intros Hr. rewrite H5. f_equal. unfold nonce.
      apply copy_same_length. now rewrite length_replicate.
    + intros Hct. now apply (subkey_same_ID m sub nonce).
Qed.

End MoreKeys.

(** ** The wire form *)

Section MoreCodec.

Context `{Cr : crypto.Package} `{En : encoding.Package}.

Lemma DecodePrefixed_bound (d d' : encoding.Decoder) (bs : list byte) :
  encoding.DecodePrefixed d = (bs, d') -> encoding.dec_err d' = None ->
  (N.of_nat (length bs) <= encoding.maxAlloc d)%N
  /\ (N.of_nat (length bs) < 2 ^ 64)%N.
Proof.
  unfold encoding.DecodePrefixed. intros H Hd'.
  destruct (encoding.ReadFull 8 d) as [p d1] eqn:E1.
  destruct (encoding.dec_err d1) eqn:Ed1.
  - injection H as <- <-. congruence.
  - destruct (ReadFull_ok _ _ _ _ E1 Ed1) as (_ & Hp & _ & Hlim).
    destruct (N.leb_spec (le_value p) (encoding.maxAlloc d1)) as [Hle|Hgt].
    + destruct (ReadFull_ok _ _ _ _ H Hd') as (_ & Hbs & _).
      rewrite Hbs, N2Nat.id, <- Hlim. split; [exact Hle|].
      pose proof (le_value_bound p) as Hb. rewrite Hp in Hb. exact Hb.
    + injection H as <- <-. discriminate.
Qed.

Lemma unmarshalSia_Ok_decodable (r rest : list byte) (k : Skykey) :
  unmarshalSia r = Ok (k, rest) -> decodable k.
Proof.
  intros H. pose proof (unmarshalSia_decodable _ _ _ H) as Hct. revert H.
  unfold unmarshalSia, encoding.NewDecoder.
  destruct (encoding.DecodePrefixed _) as [name d1] eqn:E1.
  destruct (encoding.DecodeArray _ d1) as [ct d2] eqn:E2.
  destruct (encoding.DecodePrefixed d2) as [entropy d3] eqn:E3.
  destruct (encoding.dec_err d3) eqn:Ed3; [discriminate|].
  intros [= <- <-].
  destruct (DecodePrefixed_ok _ _ _ E3 Ed3) as (Ed2 & _ & Hl3).
  destruct (ReadFull_ok _ _ _ _ E2 Ed2) as (Ed1 & _ & _ & Hl2).
  destruct (DecodePrefixed_ok _ _ _ E1 Ed1) as (_ & _ & Hl1).
  destruct (DecodePrefixed_bound _ _ _ E3 Ed3) as [Hb3 Hb3'].
  destruct (DecodePrefixed_bound _ _ _ E1 Ed1) as [Hb1 Hb1'].
  cbn [encoding.maxAlloc] in *.
  unfold decodable. cbn [Name CipherType Entropy] in *.
  rewrite <- length_list_byte_of_string, list_byte_of_string_of_list_byte.
  repeat split; auto. congruence.
Qed.

Lemma marshalSia_self_delimiting_aux (k1 k2 : Skykey) (r1 r2 : list byte) :
  decodable k1 -> decodable k2 ->
  marshalSia k1 ++ r1 = marshalSia k2 ++ r2 -> k1 = k2 /\ r1 = r2.
Proof.
  intros H1 H2 Heq.
  pose proof (unmarshalSia_marshalSia k1 r1 H1) as E1.
  rewrite Heq, (unmarshalSia_marshalSia k2 r2 H2) in E1.
  now injection E1 as -> ->.
Qed.

(** X11.  Records need no framing: the wire form of a key says where it ends,
    so two files that start with a record and are equal start with the
    same key and go on with the same bytes. *)
Theorem marshalSia_self_delimiting (k1 k2 : Skykey) (r1 r2 : list byte) :
  decodable k1 -> decodable k2 ->
  marshalSia k1 ++ r1 = marshalSia k2 ++ r2 -> k1 = k2 /\ r1 = r2.
Proof.
  apply marshalSia_self_delimiting_aux.
Qed.

Lemma unmarshalSia_truncated (k : Skykey) (n : nat) :
  decodable k -> n < length (marshalSia k) ->
  unmarshalSia (take n (marshalSia k)) = Err errDecode.
Proof.
  intros Hk Hn.
  destruct (unmarshalSia (take n (marshalSia k))) as [[k' rest]| e |] eqn:E.
  - exfalso.
    pose proof (unmarshalSia_Ok_decodable _ _ _ E) as Hk'.
    apply marshalSia_unmarshalSia in E.
    pose proof (take_drop n (marshalSia k)) as Hsplit.
    rewrite E, <- app_assoc in Hsplit.
    rewrite <- (app_nil_r (marshalSia k)) in Hsplit at 2.
    destruct (marshalSia_self_delimiting_aux k' k _ _ Hk' Hk Hsplit) as [-> Hnil].
    apply app_eq_nil in Hnil as [-> Hd].
    apply (f_equal length) in E. rewrite length_take, app_nil_r in E. lia.
  - f_equal. now apply unmarshalSia_Err in E.
  - now apply unmarshalSia_not_Panic in E.
Qed.

(** X12.  [FromString] fails on the text of a wire form that was cut short,
    wherever the cut is. *)
Theorem FromString_truncated (k : Skykey) (n : nat) :
  decodable k -> n < length (marshalSia k) ->
  FromString (base64.EncodeToString (take n (marshalSia k))) = Err errDecode.
Proof.
  intros Hk Hn. unfold FromString.
  rewrite DecodeString_EncodeToString.
  now rewrite (unmarshalSia_truncated k n Hk Hn).
Qed.

(** X13.  [FromString] does not look at what follows the key: bytes after the
    wire form are ignored. *)
Theorem FromString_trailing (k : Skykey) (junk : list byte) :
  decodable k ->
  FromString (base64.EncodeToString (marshalSia k ++ junk)) = Ok k.
Proof.
  intros Hk. unfold FromString.
  rewrite DecodeString_EncodeToString.
  now rewrite (unmarshalSia_marshalSia k junk Hk).
Qed.

(** The size of a record: two length prefixes, the cipher type, the name
    and the entropy. *)
Theorem length_marshalSia (k : Skykey) :
  length (marshalSia k)
  = 8 + String.length (Name k) + length (CipherType k) + 8 + length (Entropy k).
Proof.
  unfold marshalSia, encoding.EncodePrefixed.
  rewrite !length_app, !length_le_bytes, length_list_byte_of_string. lia.
Qed.

End MoreCodec.

(** ** The file and the maps together *)

Section Persistence.

Context `{Cr : crypto.Package} `{Bu : build.Package} `{En : encoding.Package}.

Lemma write_at_app (a b data : list byte) :
  write_at (length a) data (a ++ b) = a ++ data ++ drop (length data) b.
Proof.
  unfold write_at.
  replace (length a - length (a ++ b)) with 0 by (rewrite length_app; lia).
  cbn [replicate]. rewrite app_nil_r, take_app_length.
  rewrite drop_app_ge by lia.
  now replace (length a + length data - length a) with (length data) by lia.
Qed.

Lemma write_at_0 (h h' rest : list byte) :
  length h' = length h -> write_at 0 h' (h ++ rest) = h' ++ rest.
Proof.
  intros Hl. pose proof (write_at_app [] (h ++ rest) h') as H.
  cbn [length app] in H. rewrite H. f_equal.
  rewrite Hl. apply drop_app_length.
Qed.

Lemma length_headerBytes (sm : SkykeyManager) :
  length (version sm) = types.SpecifierLen -> length (headerBytes sm) = headerLen.
Proof.
  intros Hv. unfold headerBytes. rewrite !length_app, Hv, length_le_bytes.
  reflexivity.
Qed.

Lemma stored_app (ks : list Skykey) (sk : Skykey) (sm : SkykeyManager) :
  stored (ks ++ [sk]) sm = store sk (stored ks sm).
Proof. unfold stored. now rewrite fold_left_app. Qed.

Lemma stored_cons (k : Skykey) (ks : list Skykey) (sm : SkykeyManager) :
  stored (k :: ks) sm = stored ks (store k sm).
Proof. reflexivity. Qed.

Lemma store_fields (sk : Skykey) (sm : SkykeyManager) :
  version (store sk sm) = version sm /\ fileLen (store sk sm) = fileLen sm.
Proof. unfold store. destruct (ID sk); auto. Qed.

Lemma stored_fields (ks : list Skykey) : forall sm,
  version (stored ks sm) = version sm /\ fileLen (stored ks sm) = fileLen sm.
Proof.
  induction ks as [|k ks IH]; intros sm; [auto|].
  rewrite stored_cons. destruct (IH (store k sm)) as [-> ->].
  apply store_fields.
Qed.

Lemma stored_maps_ext (ks : list Skykey) : forall sm1 sm2,
  idsByName sm1 = idsByName sm2 -> keysByID sm1 = keysByID sm2 ->
  idsByName (stored ks sm1) = idsByName (stored ks sm2)
  /\ keysByID (stored ks sm1) = keysByID (stored ks sm2).
Proof.
  induction ks as [|k ks IH]; intros sm1 sm2 Hn Hk; [auto|].
  rewrite !stored_cons. apply IH; unfold store;
    destruct (ID k); cbn [set_maps idsByName keysByID]; congruence.
Qed.

Lemma manager_eq (sm sm' : SkykeyManager) :
  idsByName sm = idsByName sm' -> keysByID sm = keysByID sm' ->
  version sm = version sm' -> fileLen sm = fileLen sm' -> sm = sm'.
Proof. destruct sm, sm'. cbn. now intros -> -> -> ->. Qed.

Lemma int_of_uint64_small (n : N) : (n < 2 ^ 63)%N -> int_of_uint64 n = Z.of_N n.
Proof. intros H. unfold int_of_uint64. apply N.ltb_lt in H. now rewrite H. Qed.

(** The loop of [load] on the records of [ks]: it stores them in order
    and stops at their end. *)
Lemma loadKeys_stored (ks : list Skykey) : forall (fuel off : nat) (w : world)
  (junk : list byte),
  w_fault w = None ->
  off <= length (w_file w) ->
  drop off (w_file w) = recordsOf ks ++ junk ->
  int_of_uint64 (fileLen (w_sm w)) = Z.of_nat (off + length (recordsOf ks)) ->
  Forall (fun k => decodable k /\ ID k <> Panic) ks ->
  length ks <= fuel ->
  loadKeys fuel off w
  = (Ok (Some (off + length (recordsOf ks))),
     mkWorld (stored ks (w_sm w)) (w_file w) None).
Proof.
  induction ks as [|k ks IH]; intros fuel off w junk Hf Hoff Hdrop Hlim Hks Hfuel.
  - cbn [recordsOf map concat length] in *. rewrite Nat.add_0_r in *.
    rewrite loadKeys_stop by lia. destruct w. cbn in *. now subst.
  - destruct fuel as [|fuel]; [cbn in Hfuel; lia|].
    inversion Hks as [|? ? [Hdec HID] Hks']; subst.
    change (recordsOf (k :: ks)) with (marshalSia k ++ recordsOf ks) in *.
    rewrite length_app in *.
    assert (Hpos : 0 < length (marshalSia k)).
    { unfold marshalSia, encoding.EncodePrefixed.
      rewrite !length_app, !length_le_bytes. lia. }
    rewrite loadKeys_step by lia.
    unfold mbind, lift. rewrite Hdrop, <- app_assoc.
    rewrite (unmarshalSia_marshalSia k _ Hdec). cbn [fst snd].
    destruct (ID_cases k) as [[id Hid] | HP]; [|contradiction].
    rewrite Hid. unfold modify_sm. cbn [w_sm w_file w_fault].
    rewrite io_no_fault by exact Hf.
    assert (Hlen : length (w_file w) - off
                   = length (marshalSia k) + length (recordsOf ks ++ junk)).
    { rewrite <- length_drop, Hdrop, <- app_assoc, !length_app. lia. }
    replace (length (w_file w) - length (recordsOf ks ++ junk))
      with (off + length (marshalSia k)) by lia.
    rewrite (IH fuel (off + length (marshalSia k)) _ junk);
      cbn [w_sm w_file w_fault set_maps fileLen]; auto; try lia.
    + rewrite Nat.add_assoc, stored_cons. unfold store at 1.
      now rewrite Hid.
    + rewrite <- drop_drop, Hdrop, <- app_assoc.
      now rewrite drop_app_length.
    + cbn in Hfuel. lia.
Qed.

Lemma length_recordsOf (ks : list Skykey) : length ks <= length (recordsOf ks).
Proof.
  induction ks as [|k ks IH]; [cbn; lia|].
  change (recordsOf (k :: ks)) with (marshalSia k ++ recordsOf ks).
  rewrite length_app. cbn [length].
  assert (0 < length (marshalSia k)).
  { unfold marshalSia, encoding.EncodePrefixed.
    rewrite !length_app, !length_le_bytes. lia. }
  lia.
Qed.

(** [load], from any manager, on a file whose header and records are
    those of [persisted]. *)
Lemma load_persisted (ks : list Skykey) (sm sm0 : SkykeyManager)
  (file : list byte) :
  persisted ks sm file ->
  build.IsVersion (stripNUL (version sm)) = true ->
  (0 <= build.VersionCmp skykeyVersionString (stripNUL (version sm)))%Z ->
  load (mkWorld sm0 file None)
  = (Ok tt,
     mkWorld (stored ks (set_fileLen (fileLen sm) (set_version (version sm) sm0)))
       file None).
Proof.
  intros ([junk Hfile] & HL & H63 & Hv & _ & _ & Hks) Hval Hcmp.
  set (w := mkWorld sm0 file None).
  assert (Hm : length SkykeyFileMagic = types.SpecifierLen) by reflexivity.
  assert (Hfile' : w_file w = SkykeyFileMagic ++ version sm
                     ++ le_bytes 8 (fileLen sm) ++ recordsOf ks ++ junk).
  { cbn [w w_file]. rewrite Hfile. unfold headerBytes. now rewrite <- !app_assoc. }
  pose proof (loadHeader_eq w _ _ _ _ Hfile' Hm Hv (length_le_bytes 8 _)
                ltac:(discriminate)) as Hh.
  rewrite decide_False in Hh by (intros H; now apply H).
  cbv zeta in Hh. rewrite Hval in Hh. cbn [negb] in Hh.
  apply Z.ltb_ge in Hcmp. rewrite Hcmp in Hh.
  rewrite le_value_le_bytes_small in Hh by (cbn; lia).
  cbn [w w_sm w_file w_fault] in Hh. fold w in Hh.
  assert (Hhl : length (headerBytes sm) = headerLen) by now apply length_headerBytes.
  assert (Hlen : headerLen <= length (w_file w)).
  { cbn [w w_file]. rewrite Hfile, length_app. lia. }
  rewrite (load_eq w _ eq_refl Hlen Hh).
  rewrite (loadKeys_stored ks (S (length (w_file w))) headerLen _ junk);
    cbn [w w_sm w_file w_fault set_fileLen set_version fileLen]; auto.
  - match goal with |- context [fileLen (stored ks ?m)] =>
      destruct (stored_fields ks m) as [_ ->] end.
    cbn [fileLen set_fileLen set_version].
    rewrite int_of_uint64_small, HL by exact H63.
    rewrite decide_False; [reflexivity|]. intros H. apply H. lia.
  - rewrite Hfile, <- Hhl. apply drop_app_length.
  - rewrite int_of_uint64_small, HL by exact H63. lia.
  - pose proof (length_recordsOf ks).
    rewrite Hfile, !length_app. lia.
Qed.

Lemma persisted_offset (ks : list Skykey) (sm : SkykeyManager) (file : list byte) :
  persisted ks sm file ->
  N.to_nat (fileLen sm) = length (headerBytes sm ++ recordsOf ks).
Proof.
  intros (_ & HL & _ & Hv & _). rewrite HL, Nat2N.id, length_app.
  now rewrite length_headerBytes.
Qed.

(** Writing at [fileLen] does not touch what [persisted] is about. *)
Lemma persisted_write (ks : list Skykey) (sm : SkykeyManager)
  (file data : list byte) :
  persisted ks sm file ->
  persisted ks sm (write_at (N.to_nat (fileLen sm)) data file).
Proof.
  intros Hp. pose proof (persisted_offset _ _ _ Hp) as Hoff.
  destruct Hp as ([junk Hfile] & Hrest).
  split; [|exact Hrest].
  exists (data ++ drop (length data) junk).
  rewrite Hoff, Hfile, app_assoc, write_at_app.
  now rewrite <- app_assoc.
Qed.

Lemma recordsOf_app (ks : list Skykey) (sk : Skykey) :
  recordsOf (ks ++ [sk]) = recordsOf ks ++ marshalSia sk.
Proof.
  unfold recordsOf. rewrite map_app, concat_app. cbn. now rewrite app_nil_r.
Qed.

(** A save that goes through extends [persisted] by the key. *)
Lemma persisted_save (ks : list Skykey) (sm : SkykeyManager) (file : list byte)
  (sk : Skykey) (id : SkykeyID) :
  persisted ks sm file ->
  ID sk = Ok id -> decodable sk ->
  (fileLen sm + N.of_nat (length (marshalSia sk)) < 2 ^ 63)%N ->
  let sm' := set_fileLen (uint64 (fileLen sm + N.of_nat (length (marshalSia sk))))
               (set_maps (Name sk) id sk sm) in
  persisted (ks ++ [sk]) sm'
    (write_at 0 (headerBytes sm')
       (write_at (N.to_nat (fileLen sm)) (marshalSia sk) file)).
Proof.
  intros Hp Hid Hdec H63 sm'.
  pose proof (persisted_offset _ _ _ Hp) as Hoff.
  destruct Hp as ([junk Hfile] & HL & _ & Hv & Hn & Hk & Hks).
  assert (Hu : uint64 (fileLen sm + N.of_nat (length (marshalSia sk)))
               = (fileLen sm + N.of_nat (length (marshalSia sk)))%N).
  { unfold uint64. apply N.mod_small.
    assert (2 ^ 63 < 2 ^ 64)%N by (cbn; lia). lia. }
  assert (Hv' : length (version sm') = types.SpecifierLen) by exact Hv.
  split; [|split; [|split; [|split; [|split; [|split]]]]].
  - exists (drop (length (marshalSia sk)) junk).
    rewrite Hoff, Hfile, app_assoc, write_at_app.
    rewrite <- app_assoc, write_at_0
      by (now rewrite !length_headerBytes).
    now rewrite recordsOf_app, <- !app_assoc.
  - cbn [sm' fileLen set_fileLen]. rewrite Hu, HL, recordsOf_app, length_app. lia.
  - cbn [sm' fileLen set_fileLen]. now rewrite Hu.
  - exact Hv'.
  - cbn [sm' idsByName set_fileLen set_maps]. rewrite stored_app.
    unfold store. rewrite Hid. cbn [set_maps idsByName]. now rewrite Hn.
  - cbn [sm' keysByID set_fileLen set_maps]. rewrite stored_app.
    unfold store. rewrite Hid. cbn [set_maps keysByID]. now rewrite Hk.
  - apply Forall_app. split; [exact Hks|].
    constructor; [|constructor].
    split; [exact Hdec|]. rewrite Hid. discriminate.
Qed.

(** Persistence round trip, the reading half: a file that holds the
    header of a manager and the records of its keys up to [fileLen], and
    anything after that, is loaded back into this manager, provided the
    version of the header is one that [load] takes. *)
Lemma persisted_reopen (ks : list Skykey) (sm : SkykeyManager)
  (file : list byte) :
  persisted ks sm file ->
  build.IsVersion (stripNUL (version sm)) = true ->
  (0 <= build.VersionCmp skykeyVersionString (stripNUL (version sm)))%Z ->
  NewSkykeyManager file None = (Ok sm, file).
Proof.
  intros Hp Hval Hcmp.
  pose proof (load_persisted ks sm emptyManager file Hp Hval Hcmp) as Hload.
  destruct Hp as (_ & _ & _ & _ & Hn & Hk & _).
  unfold NewSkykeyManager. rewrite io_no_fault by reflexivity.
  rewrite Hload. cbn [w_sm w_file]. f_equal. f_equal.
  match goal with |- stored ks ?m = _ =>
    destruct (stored_fields ks m) as [Hv' Hl'];
    destruct (stored_maps_ext ks m emptyManager eq_refl eq_refl) as [Hn' Hk'] end.
  apply manager_eq; cbn [set_fileLen set_version version fileLen] in *; congruence.
Qed.

(** Persistence round trip, the writing half: when the disk works,
    [saveKey] keeps the file and the manager together, so that the file
    loads back into the manager, new key included. *)
Lemma persisted_saveKey (ks : list Skykey) (sk : Skykey) (id : SkykeyID)
  (w : world) :
  persisted ks (w_sm w) (w_file w) ->
  w_fault w = None ->
  ID sk = Ok id -> decodable sk ->
  (fileLen (w_sm w) + N.of_nat (length (marshalSia sk)) < 2 ^ 63)%N ->
  fst (saveKey sk w) = Ok tt
  /\ persisted (ks ++ [sk]) (w_sm (snd (saveKey sk w))) (w_file (snd (saveKey sk w)))
  /\ fileLen (w_sm (snd (saveKey sk w)))
     = (fileLen (w_sm w) + N.of_nat (length (marshalSia sk)))%N
  /\ length (w_file (snd (saveKey sk w)))
     = Nat.max (length (w_file w))
         (N.to_nat (fileLen (w_sm w)) + length (marshalSia sk)).
Proof.
  intros Hp Hf Hid Hdec H63.
  assert (Hlt : (fileLen (w_sm w) < 2 ^ 63)%N) by lia.
  rewrite (saveKey_no_fault sk id w Hid Hf Hlt). cbn [fst snd w_sm w_file].
  split; [reflexivity|].
  split; [now apply persisted_save|].
  split.
  - cbn [fileLen set_fileLen]. unfold uint64. apply N.mod_small.
    assert (2 ^ 63 < 2 ^ 64)%N by (cbn; lia). lia.
  - pose proof (persisted_offset _ _ _ Hp) as Hoff.
    destruct Hp as ([junk Hfile] & _ & _ & Hv & _).
    rewrite Hoff, Hfile, app_assoc, write_at_app.
    rewrite <- app_assoc, write_at_0
      by (rewrite !length_headerBytes; auto).
    rewrite !length_app, length_drop.
    rewrite !length_headerBytes by auto. lia.
Qed.

End Persistence.

Section RoundTrip.

Context `{Cr : crypto.Package} `{Bu : build.Package} `{En : encoding.Package}.

Lemma store_Ok (k : Skykey) (sm : SkykeyManager) :
  ID k <> Panic -> store k sm = set_maps (Name k) (idOf k) k sm.
Proof.
  intros H. unfold store, idOf.
  destruct (ID_cases k) as [[id ->] | HP]; [reflexivity | contradiction].
Qed.

Lemma ID_idOf (k : Skykey) : ID k <> Panic -> ID k = Ok (idOf k).
Proof.
  intros H. unfold idOf.
  destruct (ID_cases k) as [[id ->] | HP]; [reflexivity | contradiction].
Qed.

Lemma Forall_ok (ks : list Skykey) :
  Forall (fun k => decodable k /\ ID k <> Panic) ks ->
  Forall (fun k => ID k <> Panic) ks.
Proof. induction 1 as [|k ks [_ Hk] _ IH]; constructor; auto. Qed.

(** Which names and identifiers the maps hold after [stored]. *)
Lemma stored_None (ks : list Skykey) :
  Forall (fun k => ID k <> Panic) ks ->
  (forall name, idsByName (stored ks emptyManager) !! name = None
                <-> name ∉ Name <$> ks)
  /\ (forall id, keysByID (stored ks emptyManager) !! id = None
                 <-> id ∉ idOf <$> ks).
Proof.
  induction ks as [|x ks IH] using rev_ind; intros Hks.
  - split; intros i; cbn; rewrite lookup_empty; split; auto; intros _;
      apply not_elem_of_nil.
  - apply Forall_app in Hks as [Hks Hx]. inversion Hx as [|? ? Hx' _]; subst.
    destruct (IH Hks) as [IHn IHk].
    rewrite stored_app, store_Ok by exact Hx'.
    cbn [set_maps idsByName keysByID]. rewrite !fmap_app. cbn [fmap list_fmap].
    split; intros i; rewrite lookup_insert_None, not_elem_of_app,
      not_elem_of_cons.
    + rewrite IHn. split; [intros [? ?] | intros [? [? _]]]; repeat split; auto.
      apply not_elem_of_nil.
    + rewrite IHk. split; [intros [? ?] | intros [? [? _]]]; repeat split; auto.
      apply not_elem_of_nil.
Qed.

Lemma stored_Some (ks : list Skykey) :
  Forall (fun k => ID k <> Panic) ks ->
  NoDup (Name <$> ks) -> NoDup (idOf <$> ks) ->
  forall k, k ∈ ks ->
    idsByName (stored ks emptyManager) !! Name k = Some (idOf k)
    /\ keysByID (stored ks emptyManager) !! idOf k = Some k.
Proof.
  induction ks as [|x ks IH] using rev_ind; intros Hks Hn Hi k Hk.
  - now apply elem_of_nil in Hk.
  - apply Forall_app in Hks as [Hks Hx]. inversion Hx as [|? ? Hx' _]; subst.
    rewrite fmap_app in Hn. rewrite fmap_app in Hi.
    cbn [fmap list_fmap] in Hn, Hi.
    apply stdpp.list_relations.list.NoDup_app in Hn as (Hn1 & Hn2 & _).
    apply stdpp.list_relations.list.NoDup_app in Hi as (Hi1 & Hi2 & _).
    rewrite stored_app, store_Ok by exact Hx'.
    cbn [set_maps idsByName keysByID].
    apply elem_of_app in Hk as [Hk | Hk].
    + assert (Name x <> Name k).
      { intros E. apply (Hn2 (Name k)); [now apply list_elem_of_fmap_2|].
        rewrite E. apply list_elem_of_here. }
      assert (idOf x <> idOf k).
      { intros E. apply (Hi2 (idOf k)); [now apply list_elem_of_fmap_2|].
        rewrite E. apply list_elem_of_here. }
      rewrite !lookup_insert_ne by assumption. now apply IH.
    + apply list_elem_of_singleton in Hk as ->. now rewrite !lookup_insert_eq.
Qed.

Lemma AllSkykeys_stored (ks : list Skykey) :
  Forall (fun k => ID k <> Panic) ks -> NoDup (idOf <$> ks) ->
  AllSkykeys (stored ks emptyManager) ≡ₚ ks.
Proof.
  induction ks as [|x ks IH] using rev_ind; intros Hks Hi.
  - unfold AllSkykeys. cbn. now rewrite map_to_list_empty.
  - apply Forall_app in Hks as [Hks Hx]. inversion Hx as [|? ? Hx' _]; subst.
    rewrite fmap_app in Hi. cbn [fmap list_fmap] in Hi.
    apply stdpp.list_relations.list.NoDup_app in Hi as (Hi1 & Hi2 & _).
    rewrite stored_app, store_Ok by exact Hx'.
    unfold AllSkykeys in *. cbn [set_maps keysByID].
    rewrite map_to_list_insert.
    + cbn [fmap list_fmap snd]. rewrite (IH Hks Hi1).
      apply Permutation_cons_append.
    + apply (stored_None ks Hks). intros Hin. apply (Hi2 _ Hin).
      apply list_elem_of_here.
Qed.

(** [AddKeys] on keys that collide neither with what is stored nor with
    each other, when the disk works. *)
Lemma AddKeys_persisted (ks : list Skykey) : forall (ks0 : list Skykey) (w : world),
  persisted ks0 (w_sm w) (w_file w) ->
  w_fault w = None ->
  Forall (fun k => decodable k /\ ID k <> Panic) ks ->
  NoDup (Name <$> ks0 ++ ks) -> NoDup (idOf <$> ks0 ++ ks) ->
  (N.of_nat (headerLen + length (recordsOf (ks0 ++ ks))) < 2 ^ 63)%N ->
  fst (AddKeys ks w) = Ok tt
  /\ persisted (ks0 ++ ks) (w_sm (snd (AddKeys ks w))) (w_file (snd (AddKeys ks w))).
Proof.
  induction ks as [|k ks IH]; intros ks0 w Hp Hf Hks Hn Hi Hsize.
  - cbn. rewrite app_nil_r. auto.
  - inversion Hks as [|? ? [Hdec HID] Hks']; subst.
    assert (Hok0 : Forall (fun k => ID k <> Panic) ks0).
    { pose proof Hp as (_ & _ & _ & _ & _ & _ & H0). now apply Forall_ok. }
    destruct (stored_None ks0 Hok0) as [HNn HNk].
    assert (Hfresh_n : idsByName (w_sm w) !! Name k = None).
    { pose proof Hp as (_ & _ & _ & _ & -> & _). apply HNn.
      rewrite fmap_app in Hn. apply stdpp.list_relations.list.NoDup_app in Hn as (_ & Hn & _).
      intros Hin. apply (Hn _ Hin). cbn. apply list_elem_of_here. }
    assert (Hfresh_k : keysByID (w_sm w) !! idOf k = None).
    { pose proof Hp as (_ & _ & _ & _ & _ & -> & _). apply HNk.
      rewrite fmap_app in Hi. apply stdpp.list_relations.list.NoDup_app in Hi as (_ & Hi & _).
      intros Hin. apply (Hi _ Hin). cbn. apply list_elem_of_here. }
    assert (Hrec : recordsOf (ks0 ++ k :: ks)
                   = recordsOf ks0 ++ marshalSia k ++ recordsOf ks).
    { unfold recordsOf. rewrite map_app, concat_app. reflexivity. }
    assert (Hsz : (fileLen (w_sm w) + N.of_nat (length (marshalSia k)) < 2 ^ 63)%N).
    { pose proof Hp as (_ & -> & _). rewrite Hrec, !length_app in Hsize. lia. }
    destruct (persisted_saveKey ks0 k (idOf k) w Hp Hf (ID_idOf k HID) Hdec Hsz)
      as (Hr & Hp' & _).
    cbn [AddKeys]. unfold mbind.
    rewrite (AddKey_fresh k (idOf k) w (ID_idOf k HID) Hfresh_k Hfresh_n).
    assert (Hf' : w_fault (snd (saveKey k w)) = None).
    { pose proof (saveKey_post k (idOf k) w (ID_idOf k HID)) as Hpost.
      unfold post in Hpost. destruct Hpost as (_ & _ & _ & -> & _). exact Hf. }
    destruct (saveKey k w) as [r w']. cbn [fst snd] in *. subst r.
    replace (ks0 ++ k :: ks) with ((ks0 ++ [k]) ++ ks) in *
      by now rewrite <- app_assoc.
    now apply IH.
Qed.

Lemma persisted_fresh : persisted [] freshManager (headerBytes freshManager).
Proof.
  unfold persisted. repeat split; try reflexivity.
  - exists []. reflexivity.
  - constructor.
Qed.

(** X14.  Persistence round trip.  Keys with distinct names and distinct
    identifiers, each within the limits of the decoder, are added to a new
    manager while the disk works.  Every [AddKey] succeeds; opening the
    file afterwards gives the very manager that was written from; each key
    is found by its name and by its identifier; and [AllSkykeys] lists the
    keys, in some order. *)
Theorem persistence_roundtrip (ks : list Skykey) :
  build.IsVersion (stripNUL skykeyVersion) = true ->
  (0 <= build.VersionCmp skykeyVersionString (stripNUL skykeyVersion))%Z ->
  Forall (fun k => decodable k /\ ID k <> Panic) ks ->
  NoDup (Name <$> ks) -> NoDup (idOf <$> ks) ->
  (N.of_nat (headerLen + length (recordsOf ks)) < 2 ^ 63)%N ->
  let r := AddKeys ks freshWorld in
  fst r = Ok tt
  /\ NewSkykeyManager (w_file (snd r)) None = (Ok (w_sm (snd r)), w_file (snd r))
  /\ (forall k, k ∈ ks ->
        KeyByName (w_sm (snd r)) (Name k) = Ok k
        /\ IDByName (w_sm (snd r)) (Name k) = Ok (idOf k)
        /\ KeyByID (w_sm (snd r)) (idOf k) = Ok k)
  /\ AllSkykeys (w_sm (snd r)) ≡ₚ ks.
Proof.
  intros Hval Hcmp Hks Hn Hi Hsize r.
  destruct (AddKeys_persisted ks [] freshWorld persisted_fresh eq_refl
              Hks Hn Hi Hsize) as [Hr Hp].
  fold r in Hr, Hp. cbn [app] in Hp.
  assert (Hok : Forall (fun k => ID k <> Panic) ks) by now apply Forall_ok.
  assert (Hver : version (w_sm (snd r)) = skykeyVersion).
  { clear -Hks. subst r.
    assert (H : forall ks w, version (w_sm (snd (AddKeys ks w))) = version (w_sm w)).
    { clear. induction ks as [|k ks IH]; intros w; [reflexivity|].
      cbn [AddKeys]. unfold mbind.
      assert (Hv : version (w_sm (snd (AddKey k w))) = version (w_sm w)).
      { unfold AddKey, mbind, get_sm, lift, throw.
        destruct (ID_cases k) as [[id Hid] | HP]; [rewrite Hid | now rewrite HP].
        destruct (keysByID (w_sm w) !! id); [reflexivity|].
        destruct (idsByName (w_sm w) !! Name k); [reflexivity|].
        pose proof (saveKey_post k id w Hid) as Hpost. unfold post in Hpost.
        now destruct Hpost as (_ & _ & -> & _). }
      destruct (AddKey k w) as [[[]| |] w']; cbn [fst snd] in *; auto.
      now rewrite IH. }
    apply H. }
  split; [exact Hr|]. split.
  - apply (persisted_reopen ks); [exact Hp | now rewrite Hver | now rewrite Hver].
  - destruct Hp as (_ & _ & _ & _ & Hin & Hik & _). split.
    + intros k Hk. destruct (stored_Some ks Hok Hn Hi k Hk) as [H1 H2].
      unfold KeyByName, IDByName, KeyByID.
      rewrite Hin, H1. cbv beta iota. rewrite Hik, H2. auto.
    + unfold AllSkykeys. rewrite Hik. now apply AllSkykeys_stored.
Qed.

End RoundTrip.

Section Recovery.

Context `{Cr : crypto.Package} `{Bu : build.Package} `{En : encoding.Package}.

Lemma write_at_nil (a b : list byte) : write_at (length a) [] (a ++ b) = a ++ b.
Proof. now rewrite write_at_app. Qed.

Local Ltac pass :=
  rewrite decide_False by discriminate;
  cbv beta iota; cbn [w_sm w_file w_fault fileLen set_maps fst snd].

Local Ltac hit :=
  match goal with
  | |- context [decide (Some ?s = Some ?s)] =>
      destruct (decide (Some s = Some s)) as [_|Hc]; [|now destruct Hc]
  end.

(** What a save that fails before the header is rewritten leaves in the
    file: some bytes written at [fileLen], nothing before. *)
Lemma saveKey_fault (sk : Skykey) (id : SkykeyID) (w : world) (s : io_step) :
  ID sk = Ok id -> w_fault w = Some s -> before_header s (marshalSia sk) ->
  (fileLen (w_sm w) < 2 ^ 63)%N ->
  fst (saveKey sk w) = Err (errIO s)
  /\ exists data,
       w_file (snd (saveKey sk w))
       = write_at (N.to_nat (fileLen (w_sm w))) data (w_file w)
       \/ w_file (snd (saveKey sk w)) = w_file w.
Proof.
  intros Hid Hf Hs Hlen. apply N.ltb_lt in Hlen.
  destruct w as [sm file f]. cbn [w_sm w_file w_fault] in *. subst f.
  unfold saveKey, saveHeader, mbind, lift, modify_sm, io, get_sm, throw, write_file.
  rewrite Hid. cbn [w_sm w_file w_fault set_maps fileLen].
  destruct Hs as [-> | [-> | [-> | [-> | [n [-> Hn]]]]]].
  - hit. cbn. split; [reflexivity|].
    exists []. now right.
  - pass. rewrite Hlen. cbv beta iota. cbn [w_fault].
    hit.
    cbn. split; [reflexivity|]. exists []. now right.
  - pass. rewrite Hlen. cbv beta iota. cbn [w_fault]. pass.
    cbn [base.mbind option_bind fmap option_fmap option_map key_write].
    cbv beta iota. cbn [w_sm w_file w_fault fst snd].
    hit. cbn. split; [reflexivity|].
    exists (marshalSia sk). now left.
  - pass. rewrite Hlen. cbv beta iota. cbn [w_fault]. pass.
    cbn [base.mbind option_bind fmap option_fmap option_map key_write].
    cbv beta iota. cbn [w_sm w_file w_fault fst snd].
    pass. hit. cbn. split; [reflexivity|].
    exists (marshalSia sk). now left.
  - pass. rewrite Hlen. cbv beta iota. cbn [w_fault]. pass.
    cbn [base.mbind option_bind fmap option_fmap option_map key_write].
    cbv beta iota. cbn [w_sm w_file w_fault fst snd].
    rewrite decide_True by exact Hn. cbn. split; [reflexivity|].
    exists (take n (marshalSia sk)). now left.
Qed.

(** X15.  Crash safety of the append.  A save that fails before the header is
    rewritten (the file cannot be opened or positioned, the record is
    written in part, or a sync fails) returns the error of the disk and
    leaves a file that still loads into the manager as it was before the
    call, although the maps in memory now hold the key. *)
Theorem failed_save_recoverable (ks : list Skykey) (sk : Skykey) (id : SkykeyID)
  (w : world) (s : io_step) :
  persisted ks (w_sm w) (w_file w) ->
  build.IsVersion (stripNUL (version (w_sm w))) = true ->
  (0 <= build.VersionCmp skykeyVersionString (stripNUL (version (w_sm w))))%Z ->
  ID sk = Ok id -> w_fault w = Some s -> before_header s (marshalSia sk) ->
  fst (saveKey sk w) = Err (errIO s)
  /\ keysByID (w_sm (snd (saveKey sk w))) !! id = Some sk
  /\ NewSkykeyManager (w_file (snd (saveKey sk w))) None
     = (Ok (w_sm w), w_file (snd (saveKey sk w))).
Proof.
  intros Hp Hval Hcmp Hid Hf Hs.
  assert (Hlen : (fileLen (w_sm w) < 2 ^ 63)%N) by (now destruct Hp as (_ & _ & ? & _)).
  destruct (saveKey_fault sk id w s Hid Hf Hs Hlen) as [Hr [data Hfile]].
  split; [exact Hr|]. split.
  - pose proof (saveKey_post sk id w Hid) as Hpost. unfold post in Hpost.
    destruct Hpost as (_ & -> & _). apply lookup_insert_eq.
  - apply (persisted_reopen ks); [|exact Hval|exact Hcmp].
    destruct Hfile as [-> | ->]; [now apply persisted_write | exact Hp].
Qed.

(** X16.  From a state whose file is the header of the manager and the
    records of its keys ([persisted], which a save that failed breaks),
    with a version that [loadHeader] accepts: [CreateKey] with a name
    that fits and is free, the supported cipher type and an entropy that
    holds a key and that the decoder reads back, when the disk works and
    the file stays below 2^63 bytes, returns the key; the key is found
    under its name, the file is again the header and the records, and it
    loads back into the manager. *)
Theorem CreateKey_saved (ks : list Skykey) (name : string)
  (fresh : list byte) (w : world) :
  persisted ks (w_sm w) (w_file w) -> w_fault w = None ->
  build.IsVersion (stripNUL (version (w_sm w))) = true ->
  (0 <= build.VersionCmp skykeyVersionString (stripNUL (version (w_sm w))))%Z ->
  String.length name <= MaxKeyNameLen ->
  idsByName (w_sm w) !! name = None ->
  chacha.KeySize <= length fresh ->
  let sk := mkSkykey name crypto.TypeXChaCha20 fresh in
  decodable sk ->
  (fileLen (w_sm w) + N.of_nat (length (marshalSia sk)) < 2 ^ 63)%N ->
  let r := CreateKey name crypto.TypeXChaCha20 fresh w in
  fst r = Ok sk
  /\ KeyByName (w_sm (snd r)) name = Ok sk
  /\ persisted (ks ++ [sk]) (w_sm (snd r)) (w_file (snd r))
  /\ NewSkykeyManager (w_file (snd r)) None = (Ok (w_sm (snd r)), w_file (snd r)).
Proof.
  intros Hp Hf Hval Hcmp Hlen Hname Hfresh sk Hdec Hsize r.
  assert (Hid : exists id, ID sk = Ok id).
  { destruct (ID_cases sk) as [H | H]; [exact H|]. exfalso. revert H.
    unfold ID, slice_to, sk. cbn [CipherType Entropy].
    rewrite decide_True by reflexivity. now rewrite decide_True by exact Hfresh. }
  destruct Hid as [id Hid].
  destruct (persisted_saveKey ks sk id w Hp Hf Hid Hdec Hsize) as (Hr & Hp' & _).
  pose proof (saveKey_post sk id w Hid) as Hpost. unfold post in Hpost.
  destruct Hpost as (Hn & Hk & Hv & _).
  subst r. rewrite (CreateKey_checked name _ fresh w Hlen eq_refl Hname).
  fold sk. unfold mbind, ret.
  destruct (saveKey sk w) as [res w']. cbn [fst snd] in *. subst res.
  cbv beta iota. cbn [fst snd].
  split; [reflexivity|]. split; [|split; [exact Hp'|]].
  - unfold KeyByName. rewrite Hn, Hk. cbn [Name]. now rewrite !lookup_insert_eq.
  - apply (persisted_reopen (ks ++ [sk])); [exact Hp'| |]; now rewrite Hv.
Qed.

(** X17.  A persist file shorter than a header, an absent file among them, is
    replaced by a header alone, and the manager starts without keys. *)
Theorem NewSkykeyManager_short_file (file : list byte) :
  length file < headerLen ->
  NewSkykeyManager file None = (Ok freshManager, headerBytes freshManager)
  /\ length (headerBytes freshManager) = headerLen
  /\ AllSkykeys freshManager = []
  /\ fileLen freshManager = N.of_nat headerLen.
Proof.
  intros Hlen. split; [|repeat split; reflexivity].
  unfold NewSkykeyManager. rewrite io_no_fault by reflexivity.
  unfold load. unfold mbind at 1. rewrite io_no_fault by reflexivity.
  unfold mbind at 1. rewrite io_no_fault by reflexivity.
  unfold mbind at 1, get_file. cbv beta iota. cbn [w_file].
  rewrite decide_True by exact Hlen.
  unfold mbind, modify_sm. cbn [w_sm w_file w_fault].
  rewrite saveHeader_no_fault by reflexivity. cbn [w_sm w_file w_fault].
  fold freshManager. f_equal. unfold write_at.
  cbn [take Nat.add]. rewrite drop_ge; [now rewrite app_nil_r|].
  change (length (headerBytes freshManager)) with headerLen. lia.
Qed.

(** X18.  A file with a whole header that does not start with the magic is
    refused, and left as it is. *)
Theorem NewSkykeyManager_bad_magic (m v l rest : list byte) :
  length m = types.SpecifierLen -> length v = types.SpecifierLen -> length l = 8 ->
  m <> SkykeyFileMagic ->
  NewSkykeyManager (m ++ v ++ l ++ rest) None
  = (Err errExpectedMagic, m ++ v ++ l ++ rest).
Proof.
  intros Hm Hv Hl Hne.
  set (w := mkWorld emptyManager (m ++ v ++ l ++ rest) None).
  pose proof (loadHeader_eq w m v l rest eq_refl Hm Hv Hl ltac:(discriminate)) as Hh.
  rewrite decide_True in Hh by exact Hne.
  assert (Hlen : headerLen <= length (w_file w)).
  { cbn [w w_file]. rewrite !length_app, Hm, Hv, Hl. unfold headerLen. lia. }
  unfold NewSkykeyManager. rewrite io_no_fault by reflexivity.
  fold w. now rewrite (load_header_err w w errExpectedMagic eq_refl Hlen Hh).
Qed.

(** X19.  A header whose length field is below the length of the header, or
    does not fit a signed 64-bit integer, is refused: the loop reads no
    record and the final comparison fails. *)
Theorem load_bad_length (sm : SkykeyManager) (v rest : list byte) (n : N) :
  length v = types.SpecifierLen ->
  build.IsVersion (stripNUL v) = true ->
  (0 <= build.VersionCmp skykeyVersionString (stripNUL v))%Z ->
  (n < N.of_nat headerLen \/ 2 ^ 63 <= n < 2 ^ 64)%N ->
  fst (load (mkWorld sm (SkykeyFileMagic ++ v ++ le_bytes 8 n ++ rest) None))
  = Err errExpectedEntireFile.
Proof.
  intros Hv Hval Hcmp Hn.
  set (w := mkWorld sm (SkykeyFileMagic ++ v ++ le_bytes 8 n ++ rest) None).
  assert (Hm : length SkykeyFileMagic = types.SpecifierLen) by reflexivity.
  pose proof (loadHeader_eq w _ v _ rest eq_refl Hm Hv (length_le_bytes 8 n)
                ltac:(discriminate)) as Hh.
  rewrite decide_False in Hh by (intros H; now apply H).
  cbv zeta in Hh. rewrite Hval in Hh. cbn [negb] in Hh.
  apply Z.ltb_ge in Hcmp. rewrite Hcmp in Hh.
  assert (Hn64 : (n < 2 ^ 64)%N).
  { destruct Hn as [Hn | Hn]; [|lia]. unfold headerLen in Hn. cbn in Hn. lia. }
  rewrite le_value_le_bytes_small in Hh by exact Hn64.
  assert (Hlen : headerLen <= length (w_file w)).
  { cbn [w w_file]. rewrite !length_app, Hm, Hv, length_le_bytes.
    unfold headerLen. lia. }
  assert (Hint : (int_of_uint64 n < Z.of_nat headerLen)%Z).
  { unfold int_of_uint64. destruct (N.ltb_spec n (2 ^ 63)) as [Hlt | Hge].
    - destruct Hn as [Hn | Hn]; lia.
    - unfold headerLen. cbn. lia. }
  rewrite (load_eq w _ eq_refl Hlen Hh).
  rewrite loadKeys_stop by (cbn [w_sm set_fileLen fileLen]; lia).
  cbn [w_sm set_fileLen fileLen fst].
  rewrite decide_True by lia. reflexivity.
Qed.

End Recovery.

(** ** Lookups *)

Section Lookups.

Context `{Cr : crypto.Package} `{Bu : build.Package} `{En : encoding.Package}.

Lemma own_ids_set_maps (sk : Skykey) (id : SkykeyID) (sm : SkykeyManager) :
  ID sk = Ok id -> own_ids sm -> own_ids (set_maps (Name sk) id sk sm).
Proof.
  unfold own_ids, set_maps. cbn [keysByID]. intros Hid H id' k Hl.
  destruct (decide (id = id')) as [<-|Hne].
  - rewrite lookup_insert_eq in Hl. congruence.
  - rewrite lookup_insert_ne in Hl by exact Hne. eauto.
Qed.

Lemma own_ids_maps (sm sm' : SkykeyManager) :
  keysByID sm' = keysByID sm -> own_ids sm -> own_ids sm'.
Proof. unfold own_ids. intros ->. auto. Qed.

Lemma saveKey_own_ids (sk : Skykey) (w : world) :
  own_ids (w_sm w) -> post (saveKey sk) w (fun _ w' => own_ids (w_sm w')).
Proof.
  intros Ho. destruct (ID_cases sk) as [[id Hid] | Hid].
  - eapply post_conseq; [apply (saveKey_post sk id w Hid)|].
    cbn. intros r w' (_ & Hk & _).
    apply (own_ids_maps (set_maps (Name sk) id sk (w_sm w))); auto.
    now apply own_ids_set_maps.
  - unfold post. now rewrite saveKey_Panic.
Qed.

Lemma loadKeys_own_ids (fuel : nat) : forall (off : nat) (w : world),
  own_ids (w_sm w) ->
  post (loadKeys fuel off) w (fun _ w' => own_ids (w_sm w')).
Proof.
  induction fuel as [|fuel IH]; intros off w Ho.
  - cbn [loadKeys]. wp. destruct (_ <? _)%Z; wp; auto.
  - cbn [loadKeys]. wp. destruct (_ <? _)%Z; [|wp; auto].
    wp. destruct (unmarshalSia (drop off (w_file w))) as [[sk rest]| e |]; auto.
    cbn [fst snd]. wp.
    destruct (ID_cases sk) as [[id Hid] | Hid]; rewrite Hid; [|auto].
    wp. wp_io Hf; [cbn; now apply own_ids_set_maps|].
    apply IH. cbn. now apply own_ids_set_maps.
Qed.

Lemma load_own_ids (w : world) :
  own_ids (w_sm w) -> post load w (fun _ w' => own_ids (w_sm w')).
Proof.
  intros Ho. unfold load. wp_io H1; [auto|]. wp_io H2; [auto|].
  destruct (decide _).
  - wp. eapply post_conseq; [apply saveHeader_post|].
    cbn. intros r w' (-> & _). exact Ho.
  - wp. eapply post_conseq; [apply loadHeader_post|].
    intros r w1 (Hfile & Hfault & Hn & Hk).
    assert (Ho1 : own_ids (w_sm w1)) by (now apply (own_ids_maps (w_sm w))).
    destruct r as [[]| |]; auto.
    wp_io H3; [auto|].
    eapply post_conseq; [now apply loadKeys_own_ids|].
    intros r w2 Ho2.
    destruct r as [[k|]| |]; wp; auto.
    destruct (decide _); wp; auto.
Qed.

Lemma reachable_own_ids (w : world) : reachable w -> own_ids (w_sm w).
Proof.
  induction 1 as [file fault sm file' Hnew | w name ct fresh _ IH
                 | w sk _ IH | w file fault _ IH].
  - cbn. revert Hnew. unfold NewSkykeyManager, io. cbn [w_fault].
    destruct (decide (fault = Some StepMkdir)); [discriminate|].
    assert (H0 : own_ids emptyManager).
    { intros id k H. cbn in H. now rewrite lookup_empty in H. }
    pose proof (load_own_ids (mkWorld emptyManager file fault) H0) as H.
    unfold post in H.
    destruct (load _) as [[[]| |] w']; try discriminate.
    now intros [= <- _].
  - change (post (CreateKey name ct fresh) w (fun _ w' => own_ids (w_sm w'))).
    unfold CreateKey. destruct (decide _); [wp; auto|].
    destruct (negb _); [wp; auto|]. wp.
    destruct (idsByName (w_sm w) !! name); [wp; auto|]. wp.
    eapply post_conseq; [now apply saveKey_own_ids|].
    intros [[]| |] w' Ho'; wp; auto.
  - change (post (AddKey sk) w (fun _ w' => own_ids (w_sm w'))).
    unfold AddKey. wp. destruct (ID sk) as [id| |]; cbv beta iota; auto.
    destruct (keysByID (w_sm w) !! id); [wp; auto|].
    destruct (idsByName (w_sm w) !! Name sk); [wp; auto|].
    now apply saveKey_own_ids.
  - exact IH.
Qed.

(** X20.  In every state the manager goes through, a key found under an
    identifier has this identifier. *)
Theorem KeyByID_own_ID (w : world) (id : SkykeyID) (k : Skykey) :
  reachable w -> KeyByID (w_sm w) id = Ok k ->
  ID k = Ok id /\ length id = SkykeyIDLen.
Proof.
  intros Hr Hk. unfold KeyByID in Hk.
  destruct (keysByID (w_sm w) !! id) as [k'|] eqn:E; [|discriminate].
  injection Hk as ->. pose proof (reachable_own_ids w Hr id k E) as Hid.
  split; [exact Hid | now apply length_ID in Hid].
Qed.

(** X21.  [AllSkykeys] lists the keys that [KeyByID] finds, once for each
    identifier. *)
Theorem AllSkykeys_spec (sm : SkykeyManager) :
  (forall k, k ∈ AllSkykeys sm <-> exists id, KeyByID sm id = Ok k)
  /\ length (AllSkykeys sm) = size (keysByID sm).
Proof.
  unfold AllSkykeys, KeyByID. split.
  - intros k. rewrite list_elem_of_fmap. split.
    + intros [[id k'] [-> Hin]]. apply elem_of_map_to_list in Hin.
      exists id. cbn. now rewrite Hin.
    + intros [id Hid].
      destruct (keysByID sm !! id) as [k'|] eqn:E; [|discriminate].
      injection Hid as ->. exists (id, k). split; [reflexivity|].
      now apply elem_of_map_to_list.
  - now rewrite length_fmap, length_map_to_list.
Qed.

(** X22.  [AddKey] on a key of type [TypeXChaCha20] with an entropy shorter
    than a key panics in [ID], before anything is changed. *)
Theorem AddKey_short_entropy (sk : Skykey) (w : world) :
  CipherType sk = crypto.TypeXChaCha20 ->
  length (Entropy sk) < chacha.KeySize ->
  AddKey sk w = (Panic, w).
Proof.
  intros Hct He. unfold AddKey, mbind, get_sm, lift.
  assert (HP : ID sk = Panic).
  { unfold ID, slice_to. rewrite decide_True by exact Hct.
    now rewrite decide_False by lia. }
  now rewrite HP.
Qed.

(** X23.  Adding a key that collides with nothing leaves every other lookup as
    it was, whatever the disk does. *)
Theorem AddKey_other_lookups (sk : Skykey) (id : SkykeyID) (w : world) :
  consistent (w_sm w) ->
  ID sk = Ok id ->
  keysByID (w_sm w) !! id = None ->
  idsByName (w_sm w) !! Name sk = None ->
  let sm' := w_sm (snd (AddKey sk w)) in
  (forall name, name <> Name sk ->
     KeyByName sm' name = KeyByName (w_sm w) name
     /\ IDByName sm' name = IDByName (w_sm w) name)
  /\ (forall id', id' <> id -> KeyByID sm' id' = KeyByID (w_sm w) id')
  /\ KeyByName sm' (Name sk) = Ok sk /\ KeyByID sm' id = Ok sk.
Proof.
  intros Hc Hid Hk Hn sm'. subst sm'.
  rewrite (AddKey_fresh sk id w Hid Hk Hn).
  pose proof (saveKey_post sk id w Hid) as Hpost. unfold post in Hpost.
  destruct Hpost as (Hn' & Hk' & _).
  unfold KeyByName, IDByName, KeyByID. rewrite Hn', Hk'.
  split; [|split; [|split]].
  - intros name Hne. rewrite lookup_insert_ne by congruence. split; [|reflexivity].
    destruct (idsByName (w_sm w) !! name) as [id'|] eqn:E; [|reflexivity].
    rewrite lookup_insert_ne; [reflexivity|].
    intros <-. destruct (Hc name id E) as [k Hk'']. congruence.
  - intros id' Hne. now rewrite lookup_insert_ne by congruence.
  - now rewrite !lookup_insert_eq.
  - now rewrite lookup_insert_eq.
Qed.

End Lookups.

Section MoreLoading.

Context `{Cr : crypto.Package} `{Bu : build.Package} `{En : encoding.Package}.

(** X24.  Bytes after [fileLen] do not count: a file that loads into a manager
    still does, into the same manager, when anything is appended to it. *)
Theorem load_ignores_trailing_bytes (ks : list Skykey) (sm : SkykeyManager)
  (file extra : list byte) :
  persisted ks sm file ->
  build.IsVersion (stripNUL (version sm)) = true ->
  (0 <= build.VersionCmp skykeyVersionString (stripNUL (version sm)))%Z ->
  NewSkykeyManager file None = (Ok sm, file)
  /\ NewSkykeyManager (file ++ extra) None = (Ok sm, file ++ extra).
Proof.
  intros Hp Hval Hcmp. split; [now apply (persisted_reopen ks)|].
  apply (persisted_reopen ks); [|exact Hval|exact Hcmp].
  destruct Hp as ([junk ->] & Hrest). split; [|exact Hrest].
  exists (junk ++ extra). now rewrite <- !app_assoc.
Qed.

(** X25.  A record of type [TypeXChaCha20] whose entropy is shorter than a key
    makes [load] panic in [ID]: the first record of the file here. *)
Theorem load_short_entropy (sm : SkykeyManager) (k : Skykey)
  (v rest : list byte) (n : N) :
  length v = types.SpecifierLen ->
  build.IsVersion (stripNUL v) = true ->
  (0 <= build.VersionCmp skykeyVersionString (stripNUL v))%Z ->
  (N.of_nat headerLen < n < 2 ^ 63)%N ->
  decodable k ->
  CipherType k = crypto.TypeXChaCha20 ->
  length (Entropy k) < chacha.KeySize ->
  let file := SkykeyFileMagic ++ v ++ le_bytes 8 n ++ marshalSia k ++ rest in
  fst (load (mkWorld sm file None)) = Panic
  /\ fst (NewSkykeyManager file None) = Panic.
Proof.
  intros Hv Hval Hcmp Hn Hdec Hct He file.
  assert (Hm : length SkykeyFileMagic = types.SpecifierLen) by reflexivity.
  assert (HP : ID k = Panic).
  { unfold ID, slice_to. rewrite decide_True by exact Hct.
    now rewrite decide_False by lia. }
  assert (Hgen : forall sm0, fst (load (mkWorld sm0 file None)) = Panic).
  { intros sm0. set (w := mkWorld sm0 file None).
    pose proof (loadHeader_eq w _ v _ (marshalSia k ++ rest) eq_refl Hm Hv
                  (length_le_bytes 8 n) ltac:(discriminate)) as Hh.
    rewrite decide_False in Hh by (intros H; now apply H).
    cbv zeta in Hh. rewrite Hval in Hh. cbn [negb] in Hh.
    apply Z.ltb_ge in Hcmp. rewrite Hcmp in Hh.
    assert (H64 : (2 ^ 63 < 2 ^ 64)%N) by (cbn; lia).
    rewrite le_value_le_bytes_small in Hh by lia.
    assert (Hlen : headerLen <= length (w_file w)).
    { cbn [w w_file]. unfold file. rewrite !length_app, Hm, Hv, length_le_bytes.
      unfold headerLen. lia. }
    rewrite (load_eq w _ eq_refl Hlen Hh).
    rewrite loadKeys_step
      by (cbn [w_sm set_fileLen fileLen]; rewrite int_of_uint64_small; lia).
    unfold mbind, lift. cbn [w_file w].
    assert (Hdrop : drop headerLen file = marshalSia k ++ rest).
    { unfold file. rewrite !app_assoc, <- (app_assoc _ (marshalSia k)).
      apply drop_app_length'. rewrite !length_app, Hm, Hv, length_le_bytes.
      reflexivity. }
    rewrite Hdrop, (unmarshalSia_marshalSia k rest Hdec). cbn [fst snd].
    now rewrite HP. }
  split; [apply Hgen|].
  rewrite NewSkykeyManager_eq. specialize (Hgen emptyManager).
  destruct (load _) as [[[]| |] w']; cbn [fst] in Hgen; congruence.
Qed.

(** X26.  The errors that [CreateKey] and [AddKey] can return: those of their
    own checks and those of the disk. *)
Theorem mutation_errors (w : world) (e : error) :
  (forall name ct fresh,
     fst (CreateKey name ct fresh w) = Err e ->
     e = errSkykeyNameToolong \/ e = errUnsupportedSkykeyCipherType
     \/ e = ErrSkykeyWithNameAlreadyExists \/ exists s, e = errIO s)
  /\ (forall sk,
        fst (AddKey sk w) = Err e ->
        e = ErrSkykeyWithIDAlreadyExists \/ e = ErrSkykeyWithNameAlreadyExists
        \/ exists s, e = errIO s).
Proof.
  assert (Hsave : forall sk r w', saveKey sk w = (r, w') -> r = Err e ->
                    exists s, e = errIO s).
  { intros sk r w' Hs ->.
    destruct (ID_cases sk) as [[id Hid] | HP].
    - pose proof (saveKey_post sk id w Hid) as Hpost. unfold post in Hpost.
      rewrite Hs in Hpost. cbn [fst snd] in Hpost.
      destruct Hpost as (_ & _ & _ & _ & [H | [s H]]); [discriminate|].
      injection H as ->. now exists s.
    - rewrite saveKey_Panic in Hs by exact HP. discriminate. }
  split.
  - intros name ct fresh. unfold CreateKey.
    destruct (decide _); [cbn; intros [= <-]; auto|].
    destruct (negb _); [cbn; intros [= <-]; auto|].
    unfold mbind, get_sm, throw, ret. cbv beta iota.
    destruct (idsByName (w_sm w) !! name); [cbn; intros [= <-]; auto|].
    destruct (saveKey _ w) as [[[]| e' |] w'] eqn:Hs; cbn [fst]; try discriminate.
    intros [= ->]. right. right. right. now apply (Hsave _ _ _ Hs).
  - intros sk. unfold AddKey, mbind, get_sm, lift, throw.
    destruct (ID_cases sk) as [[id Hid] | HP]; [rewrite Hid | now rewrite HP].
    destruct (keysByID (w_sm w) !! id); [cbn; intros [= <-]; auto|].
    destruct (idsByName (w_sm w) !! Name sk); [cbn; intros [= <-]; auto|].
    destruct (saveKey sk w) as [r w'] eqn:Hs. cbn [fst]. intros ->.
    right. right. now apply (Hsave _ _ _ Hs).
Qed.

End MoreLoading.

Section LoadSuccess.

Context `{Cr : crypto.Package} `{Bu : build.Package} `{En : encoding.Package}.

(** When the loop ends normally, the bytes it went over are the records
    of the keys it stored. *)
Lemma loadKeys_Ok (fuel : nat) : forall (off n : nat) (w w' : world),
  loadKeys fuel off w = (Ok (Some n), w') ->
  off <= length (w_file w) ->
  exists ks,
    n = off + length (recordsOf ks)
    /\ n <= length (w_file w)
    /\ take (length (recordsOf ks)) (drop off (w_file w)) = recordsOf ks
    /\ w_sm w' = stored ks (w_sm w)
    /\ (int_of_uint64 (fileLen (w_sm w)) <= Z.of_nat n)%Z
    /\ Forall (fun k => decodable k /\ ID k <> Panic) ks.
Proof.
  induction fuel as [|fuel IH]; intros off n w w' Hrun Hoff.
  - cbn [loadKeys] in Hrun. unfold mbind, get_sm, ret in Hrun.
    destruct (Z.ltb_spec (Z.of_nat off) (int_of_uint64 (fileLen (w_sm w))));
      [discriminate|].
    injection Hrun as <- <-. exists []. cbn. rewrite Nat.add_0_r.
    repeat split; auto; try (now rewrite take_0); try lia.
  - destruct (Z.ltb_spec (Z.of_nat off) (int_of_uint64 (fileLen (w_sm w))))
      as [Hlt | Hge].
    + rewrite loadKeys_step in Hrun by exact Hlt.
      unfold mbind, lift in Hrun.
      destruct (unmarshalSia (drop off (w_file w))) as [[sk rest]| |] eqn:Hdec;
        try discriminate.
      cbn [fst snd] in Hrun.
      destruct (ID_cases sk) as [[id Hid] | HP];
        [rewrite Hid in Hrun | rewrite HP in Hrun; discriminate].
      unfold modify_sm, io in Hrun. cbn [w_sm w_file w_fault] in Hrun.
      destruct (decide (w_fault w = Some StepOffset)); [discriminate|].
      pose proof (unmarshalSia_Ok_decodable _ _ _ Hdec) as Hd.
      pose proof (marshalSia_unmarshalSia _ _ _ Hdec) as Hsplit.
      assert (Hl : length (w_file w) - off = length (marshalSia sk) + length rest).
      { rewrite <- length_drop, Hsplit, length_app. lia. }
      replace (length (w_file w) - length rest)
        with (off + length (marshalSia sk)) in Hrun by lia.
      apply IH in Hrun; cbn [w_file w_sm] in *; [|lia].
      destruct Hrun as (ks & -> & Hn & Htake & Hsm & Hlim & Hks).
      exists (sk :: ks).
      change (recordsOf (sk :: ks)) with (marshalSia sk ++ recordsOf ks).
      rewrite length_app. split; [lia|]. split; [lia|]. split; [|split; [|split]].
      * assert (Hrest : drop (off + length (marshalSia sk)) (w_file w) = rest).
        { rewrite <- drop_drop, Hsplit. apply drop_app_length. }
        rewrite Hrest in Htake.
        rewrite Hsplit, take_app_add'; [|reflexivity]. now f_equal.
      * rewrite Hsm, stored_cons. unfold store. now rewrite Hid.
      * cbn [fileLen set_maps] in Hlim. lia.
      * constructor; [|exact Hks]. split; [exact Hd|]. rewrite Hid. discriminate.
    + rewrite loadKeys_stop in Hrun by exact Hge.
      injection Hrun as <- <-. exists []. cbn. rewrite Nat.add_0_r.
      repeat split; auto; try (now rewrite take_0); try lia.
Qed.

(** X27.  What a file that [load] accepts looks like: after the magic, the
    version and the length, the bytes up to [fileLen] are the records of
    the keys that [load] stored, in their order; the manager holds the
    version and the length of the header. *)
Theorem load_Ok_records (sm0 : SkykeyManager) (file : list byte) (w' : world) :
  headerLen <= length file ->
  load (mkWorld sm0 file None) = (Ok tt, w') ->
  exists (ks : list Skykey) (junk : list byte),
    file = SkykeyFileMagic ++ version (w_sm w') ++ le_bytes 8 (fileLen (w_sm w'))
           ++ recordsOf ks ++ junk
    /\ fileLen (w_sm w') = N.of_nat (headerLen + length (recordsOf ks))
    /\ idsByName (w_sm w') = idsByName (stored ks sm0)
    /\ keysByID (w_sm w') = keysByID (stored ks sm0)
    /\ build.IsVersion (stripNUL (version (w_sm w'))) = true
    /\ (0 <= build.VersionCmp skykeyVersionString (stripNUL (version (w_sm w'))))%Z
    /\ w_file w' = file.
Proof.
  intros Hlen Hload.
  set (w := mkWorld sm0 file None) in *.
  set (m := take 16 file). set (v := take 16 (drop 16 file)).
  set (l := take 8 (drop 32 file)). set (rest := drop 40 file).
  assert (Hfile : w_file w = m ++ v ++ l ++ rest).
  { cbn [w w_file]. unfold m, v, l, rest.
    transitivity (take 16 file ++ drop 16 file); [symmetry; apply take_drop|].
    f_equal.
    transitivity (take 16 (drop 16 file) ++ drop 16 (drop 16 file));
      [symmetry; apply take_drop|].
    f_equal. rewrite drop_drop. change (16 + 16) with 32.
    transitivity (take 8 (drop 32 file) ++ drop 8 (drop 32 file));
      [symmetry; apply take_drop|].
    f_equal. now rewrite drop_drop. }
  unfold headerLen, types.SpecifierLen in Hlen.
  assert (Hm : length m = types.SpecifierLen)
    by (unfold m; rewrite length_take; unfold types.SpecifierLen; lia).
  assert (Hv : length v = types.SpecifierLen)
    by (unfold v; rewrite length_take, length_drop; unfold types.SpecifierLen; lia).
  assert (Hl : length l = 8)
    by (unfold l; rewrite length_take, length_drop; lia).
  pose proof (loadHeader_eq w m v l rest Hfile Hm Hv Hl ltac:(discriminate)) as Hh.
  assert (Hlen' : headerLen <= length (w_file w)) by exact Hlen.
  destruct (decide (m <> SkykeyFileMagic)) as [Hne | Heq].
  { rewrite (load_header_err w _ _ eq_refl Hlen' Hh) in Hload. discriminate. }
  assert (Hmagic : m = SkykeyFileMagic).
  { destruct (decide (m = SkykeyFileMagic)); [assumption | contradiction]. }
  cbv zeta in Hh.
  destruct (build.IsVersion (stripNUL v)) eqn:Hval; cbn [negb] in Hh;
    [|rewrite (load_header_err w _ _ eq_refl Hlen' Hh) in Hload; discriminate].
  destruct (Z.ltb_spec (build.VersionCmp skykeyVersionString (stripNUL v)) 0)
    as [Hlt | Hge];
    [rewrite (load_header_err w _ _ eq_refl Hlen' Hh) in Hload; discriminate|].
  rewrite (load_eq w _ eq_refl Hlen' Hh) in Hload.
  destruct (loadKeys _ headerLen _) as [[[n|]| |] w2] eqn:Hrun; try discriminate.
  destruct (decide _) as [|Hn]; [discriminate|]. injection Hload as <-.
  pose proof (loadKeys_post (S (length (w_file w))) headerLen
                (mkWorld (set_fileLen (le_value l) (set_version v (w_sm w)))
                   (w_file w) (w_fault w))) as Hpost.
  unfold post in Hpost. rewrite Hrun in Hpost. cbn [fst snd w_sm w_file] in Hpost.
  destruct Hpost as (Hf2 & _ & Hlen2 & Hver2 & _).
  apply loadKeys_Ok in Hrun; [|exact Hlen].
  cbn [w_sm w_file w set_fileLen set_version fileLen version] in *.
  destruct Hrun as (ks & -> & Hn' & Htake & Hsm & Hlim & Hks).
  assert (Heqn : Z.of_nat (headerLen + length (recordsOf ks))
                 = int_of_uint64 (le_value l)).
  { rewrite Hlen2 in Hn. destruct (Z.eq_dec (Z.of_nat (headerLen + length (recordsOf ks)))
                                      (int_of_uint64 (le_value l))); [assumption|].
    contradiction. }
  assert (Hlv : le_value l = N.of_nat (headerLen + length (recordsOf ks))).
  { revert Heqn. unfold int_of_uint64.
    pose proof (le_value_bound l) as Hb. rewrite Hl in Hb.
    change (256 ^ N.of_nat 8)%N with (2 ^ 64)%N in Hb.
    destruct (N.ltb_spec (le_value l) (2 ^ 63)); lia. }
  exists ks, (drop (length (recordsOf ks)) rest).
  rewrite Hlen2, Hver2, Hsm.
  destruct (stored_maps_ext ks
              (mkManager (idsByName sm0) (keysByID sm0) v (le_value l)) sm0
              eq_refl eq_refl) as [Hi Hk].
  split; [|split; [exact Hlv|split; [exact Hi|split; [exact Hk|]]]].
  - assert (Hlb : le_bytes 8 (le_value l) = l)
      by (rewrite <- Hl; apply le_bytes_le_value).
    rewrite Hfile, Hmagic, Hlb. do 3 f_equal.
    transitivity (take (length (recordsOf ks)) rest
                  ++ drop (length (recordsOf ks)) rest);
      [symmetry; apply take_drop|].
    f_equal. exact Htake.
  - auto.
Qed.

End LoadSuccess.

(** ** More concrete runs *)

Section MoreRuns.

#[local] Existing Instance Sample.Cr.
#[local] Existing Instance Sample.Bu.
#[local] Existing Instance Sample.En.

Let x01 : byte := Corelib.Init.Byte.x01.
Let x02 : byte := Corelib.Init.Byte.x02.
Let xff : byte := Corelib.Init.Byte.xff.
Let alpha : Skykey := Sample.key "alpha" x01 x00.
Let beta : Skykey := Sample.key "beta" x02 x00.
Let master : Skykey := Sample.key "master" x01 x00.

Local Ltac decodable_now := unfold decodable; cbn; repeat split; lia.
Local Ltac nodup_now :=
  repeat (constructor;
          [repeat (apply not_elem_of_cons; split; [vm_compute; discriminate|]);
           apply not_elem_of_nil|]);
  constructor.
Local Ltac compute_now := vm_compute; first [reflexivity | discriminate | lia].

Lemma SkykeyID_roundtrip_witness :
  SkykeyID_FromString (SkykeyID_ToString (replicate 16 x01)) = Ok (replicate 16 x01).
Proof. apply (SkykeyID_roundtrip (replicate 16 x01)). reflexivity. Defined.

Lemma SkykeyID_FromString_length_witness :
  SkykeyID_FromString (base64.EncodeToString [x01]) = Err errInvalidIDLength.
Proof. apply (SkykeyID_FromString_length [x01]). vm_compute. lia. Defined.


Lemma ID_Panic_iff_witness :
  ID (mkSkykey "short" Sample.TypeXChaCha20 [x01]) = Panic.
Proof.
  apply (proj2 (proj1 (ID_Panic_iff (mkSkykey "short" Sample.TypeXChaCha20 [x01])))).
  split; [reflexivity | vm_compute; lia].
Defined.

Lemma ID_key_portion_witness :
  ID (Sample.key "one" x01 x00) = ID (Sample.key "other" x01 xff).
Proof.
  apply (ID_key_portion (Sample.key "one" x01 x00) (Sample.key "other" x01 xff)).
  - reflexivity.
  - vm_compute. reflexivity.
Defined.

Lemma SubkeyWithNonce_cases_witness :
  SubkeyWithNonce master [x01] = Err errIncorrectNonceSize.
Proof.
  apply (proj1 (SubkeyWithNonce_cases master [x01])). vm_compute. lia.
Defined.

Lemma SubkeyWithNonce_parts_witness :
  Nonce (Sample.key "master" x01 xff) = Ok (replicate 24 xff).
Proof.
  apply (SubkeyWithNonce_parts master (Sample.key "master" x01 xff) (replicate 24 xff)).
  vm_compute. reflexivity.
Defined.

Lemma SubkeyWithNonce_twice_witness :
  SubkeyWithNonce (Sample.key "master" x01 xff) (replicate 24 x02)
  = SubkeyWithNonce master (replicate 24 x02).
Proof.
  apply (SubkeyWithNonce_twice master (Sample.key "master" x01 xff)
           (replicate 24 xff) (replicate 24 x02)).
  vm_compute. reflexivity.
Defined.

Lemma DeriveSubkey_parts_witness :
  ID (mkSkykey "master" Sample.TypeXChaCha20
        (replicate 32 x01 ++ x02 :: replicate 23 x00))
  = ID master.
Proof.
  apply (DeriveSubkey_parts master _ [x02]).
  - vm_compute. reflexivity.
  - reflexivity.
Defined.

Lemma GenerateFileSpecificSubkey_parts_witness :
  Nonce (Sample.key "master" x01 xff) = Ok (replicate 24 xff).
Proof.
  apply (proj2 (GenerateFileSpecificSubkey_parts master (replicate 24 xff))
           (Sample.key "master" x01 xff)).
  - vm_compute. reflexivity.
  - reflexivity.
Defined.

Lemma marshalSia_self_delimiting_witness :
  alpha = alpha /\ [x01] = [x01].
Proof.
  apply (marshalSia_self_delimiting alpha alpha [x01] [x01]);
    [decodable_now | decodable_now | reflexivity].
Defined.

Lemma FromString_truncated_witness :
  FromString (base64.EncodeToString (take 92 (marshalSia alpha))) = Err errDecode.
Proof.
  apply (FromString_truncated alpha 92); [decodable_now | vm_compute; lia].
Defined.

Lemma FromString_trailing_witness :
  FromString (base64.EncodeToString (marshalSia alpha ++ [x01; x02])) = Ok alpha.
Proof. apply (FromString_trailing alpha [x01; x02]). decodable_now. Defined.

Lemma persistence_roundtrip_witness :
  AllSkykeys (w_sm (snd (AddKeys [alpha; beta] freshWorld))) ≡ₚ [alpha; beta].
Proof.
  apply (persistence_roundtrip [alpha; beta]).
  - vm_compute. reflexivity.
  - vm_compute. discriminate.
  - repeat constructor; try decodable_now; vm_compute; discriminate.
  - nodup_now.
  - nodup_now.
  - vm_compute. reflexivity.
Defined.

Lemma failed_save_recoverable_witness :
  NewSkykeyManager
    (w_file (snd (saveKey alpha
                    (mkWorld freshManager (headerBytes freshManager) (Some StepSync)))))
    None
  = (Ok freshManager,
     w_file (snd (saveKey alpha
                    (mkWorld freshManager (headerBytes freshManager) (Some StepSync))))).
Proof.
  apply (failed_save_recoverable [] alpha (idOf alpha)
           (mkWorld freshManager (headerBytes freshManager) (Some StepSync)) StepSync).
  - apply persisted_fresh.
  - vm_compute. reflexivity.
  - vm_compute. discriminate.
  - vm_compute. reflexivity.
  - reflexivity.
  - right. right. left. reflexivity.
Defined.

Lemma CreateKey_saved_witness :
  fst (CreateKey "alpha" Sample.TypeXChaCha20 (Entropy alpha) freshWorld) = Ok alpha.
Proof.
  pose proof (CreateKey_saved [] "alpha" (Entropy alpha) freshWorld) as H.
  cbv zeta in H. apply H.
  - apply persisted_fresh.
  - reflexivity.
  - vm_compute. reflexivity.
  - vm_compute. discriminate.
  - vm_compute. lia.
  - reflexivity.
  - vm_compute. lia.
  - decodable_now.
  - vm_compute. reflexivity.
Defined.

Lemma NewSkykeyManager_short_file_witness :
  NewSkykeyManager [x01; x02] None = (Ok freshManager, headerBytes freshManager).
Proof. apply (NewSkykeyManager_short_file [x01; x02]). vm_compute. lia. Defined.

Lemma NewSkykeyManager_bad_magic_witness :
  NewSkykeyManager (replicate 16 x00 ++ skykeyVersion ++ le_bytes 8 40 ++ []) None
  = (Err errExpectedMagic, replicate 16 x00 ++ skykeyVersion ++ le_bytes 8 40 ++ []).
Proof.
  apply (NewSkykeyManager_bad_magic (replicate 16 x00) skykeyVersion (le_bytes 8 40) []);
    try reflexivity.
  vm_compute. discriminate.
Defined.

Lemma load_bad_length_witness :
  fst (load (mkWorld emptyManager
               (SkykeyFileMagic ++ skykeyVersion ++ le_bytes 8 0 ++ []) None))
  = Err errExpectedEntireFile.
Proof.
  apply (load_bad_length emptyManager skykeyVersion [] 0).
  - reflexivity.
  - vm_compute. reflexivity.
  - vm_compute. discriminate.
  - left. vm_compute. reflexivity.
Defined.

Lemma KeyByID_own_ID_witness :
  ID alpha = Ok (idOf alpha) /\ length (idOf alpha) = SkykeyIDLen.
Proof.
  apply (KeyByID_own_ID (snd (AddKey alpha freshWorld)) (idOf alpha) alpha).
  - apply reach_AddKey, reachable_fresh.
  - vm_compute. reflexivity.
Defined.

Lemma AllSkykeys_spec_witness :
  length (AllSkykeys (w_sm (snd (AddKey alpha freshWorld))))
  = size (keysByID (w_sm (snd (AddKey alpha freshWorld)))).
Proof. apply (AllSkykeys_spec (w_sm (snd (AddKey alpha freshWorld)))). Defined.

Lemma AddKey_short_entropy_witness :
  AddKey (mkSkykey "short" Sample.TypeXChaCha20 [x01]) freshWorld = (Panic, freshWorld).
Proof.
  apply (AddKey_short_entropy (mkSkykey "short" Sample.TypeXChaCha20 [x01]) freshWorld).
  - reflexivity.
  - vm_compute. lia.
Defined.

Lemma AddKey_other_lookups_witness :
  KeyByName (w_sm (snd (AddKey beta (snd (AddKey alpha freshWorld))))) "alpha"
  = KeyByName (w_sm (snd (AddKey alpha freshWorld))) "alpha".
Proof.
  apply (AddKey_other_lookups beta (idOf beta) (snd (AddKey alpha freshWorld))).
  - apply AddKey_consistent.
    exact (NewSkykeyManager_consistent [] _ None _ NewSkykeyManager_fresh).
  - vm_compute. reflexivity.
  - vm_compute. reflexivity.
  - vm_compute. reflexivity.
  - vm_compute. discriminate.
Defined.

Lemma load_ignores_trailing_bytes_witness :
  NewSkykeyManager (headerBytes freshManager ++ [x01; x02; xff]) None
  = (Ok freshManager, headerBytes freshManager ++ [x01; x02; xff]).
Proof.
  apply (load_ignores_trailing_bytes [] freshManager (headerBytes freshManager)
           [x01; x02; xff]).
  - apply persisted_fresh.
  - vm_compute. reflexivity.
  - vm_compute. discriminate.
Defined.

Lemma load_short_entropy_witness :
  fst (NewSkykeyManager
         (SkykeyFileMagic ++ skykeyVersion ++ le_bytes 8 77
          ++ marshalSia (mkSkykey "short" Sample.TypeXChaCha20 [x01]) ++ []) None)
  = Panic.
Proof.
  apply (load_short_entropy emptyManager
           (mkSkykey "short" Sample.TypeXChaCha20 [x01]) skykeyVersion [] 77).
  - reflexivity.
  - vm_compute. reflexivity.
  - vm_compute. discriminate.
  - vm_compute. split; reflexivity.
  - decodable_now.
  - reflexivity.
  - vm_compute. lia.
Defined.

Lemma mutation_errors_witness :
  ErrSkykeyWithIDAlreadyExists = ErrSkykeyWithIDAlreadyExists
  \/ ErrSkykeyWithIDAlreadyExists = ErrSkykeyWithNameAlreadyExists
  \/ exists s, ErrSkykeyWithIDAlreadyExists = errIO s.
Proof.
  apply (proj2 (mutation_errors (snd (AddKey alpha freshWorld))
                  ErrSkykeyWithIDAlreadyExists) alpha).
  vm_compute. reflexivity.
Defined.

Lemma load_Ok_records_witness :
  exists (ks : list Skykey) (junk : list byte),
    w_file (snd (AddKey alpha freshWorld))
    = SkykeyFileMagic ++ skykeyVersion ++ le_bytes 8 133 ++ recordsOf ks ++ junk.
Proof.
  destruct (load_Ok_records emptyManager (w_file (snd (AddKey alpha freshWorld)))
              (snd (load (mkWorld emptyManager
                            (w_file (snd (AddKey alpha freshWorld))) None))))
    as (ks & junk & Hfile & _).
  - vm_compute. lia.
  - apply injective_projections; [vm_compute; reflexivity | reflexivity].
  - exists ks, junk. exact Hfile.
Defined.

End MoreRuns.
